(** * Response-resolution pipeline of the QuickBooks support assistant

    A shallow embedding of the browser-side JavaScript classes [LocalRAG]
    (retrieval scoring) and [SmolLMBrain] (cache, inference, rule fallback),
    with the properties of the pipeline stated and proved over it.

    Conventions of the embedding.
    - A JavaScript string is a [string]: one [ascii] per UTF-16 code unit,
      for text whose code units are below 256.  The fixed reply texts contain
      a few characters outside that range (arrows, bullets, pictograms); they
      are carried as their UTF-8 bytes, which is harmless because those texts
      are only ever returned, never measured or searched.
    - A JavaScript [Map] is an association list in insertion order with
      unique keys.
    - A parsed JSON object is a [gmap] of its own members; a property read
      falls back on the members inherited from [Object.prototype].  An
      object filled by assignment keeps its members in insertion order;
      [Object.entries] lists those named by an array index first.
    - Code that can throw lives in a small state-and-exception monad; the
      outcome of every call that leaves the program (module import, model
      construction, weight download, retrieval, completion) is supplied by
      an environment record. *)

From Stdlib Require Import String Ascii List Arith Bool Lia QArith Qcanon.
From stdpp Require Import base numbers list sorting strings gmap.

Local Open Scope string_scope.
Local Open Scope list_scope.
Local Open Scope nat_scope.

(** ** JavaScript strings *)

Module JsString.

Definition code (c : ascii) : nat := nat_of_ascii c.

Definition inRange (lo hi : nat) (c : ascii) : bool :=
  (lo <=? code c) && (code c <=? hi).

(** [String.prototype.toLowerCase] on one code unit below 256: the basic
    Latin capitals and the Latin-1 capitals (all of 192..222 but the
    multiplication sign 215) move up by 32. *)
Definition lowerChar (c : ascii) : ascii :=
  if inRange 65 90 c || (inRange 192 222 c && negb (code c =? 215))
  then ascii_of_nat (code c + 32)
  else c.

Fixpoint toLowerCase (s : string) : string :=
  match s with
  | EmptyString => EmptyString
  | String c s' => String (lowerChar c) (toLowerCase s')
  end.

(** [s.includes(sub)] *)
Fixpoint includes (s sub : string) : bool :=
  String.prefix sub s ||
  match s with
  | EmptyString => false
  | String _ s' => includes s' sub
  end.

(** The regular-expression class [\s] (and the characters [trim] strips). *)
Definition isSpace (c : ascii) : bool :=
  inRange 9 13 c || (code c =? 32) || (code c =? 160).

(** The regular-expression class [\w]. *)
Definition isWord (c : ascii) : bool :=
  inRange 48 57 c || inRange 65 90 c || inRange 97 122 c || (code c =? 95).

Fixpoint trimStart (s : string) : string :=
  match s with
  | EmptyString => EmptyString
  | String c s' => if isSpace c then trimStart s' else s
  end.

(** Strips trailing white space: a character is kept when something that
    is not white space remains at or after it. *)
Fixpoint trimEnd (s : string) : string :=
  match s with
  | EmptyString => EmptyString
  | String c s' =>
      match trimEnd s' with
      | EmptyString => if isSpace c then EmptyString else String c EmptyString
      | t => String c t
      end
  end.

Definition trim (s : string) : string := trimEnd (trimStart s).

(** [s.substring(0, n)] *)
Fixpoint substring0 (n : nat) (s : string) : string :=
  match n, s with
  | S n', String c s' => String c (substring0 n' s')
  | _, _ => EmptyString
  end.

(** [s.replace(/pat/g, '')] for a literal, non-empty pattern: every
    occurrence found scanning left to right is dropped.  [skip] counts the
    characters of the current occurrence still to be dropped. *)
Fixpoint removeAllFrom (pat s : string) (skip : nat) : string :=
  match s with
  | EmptyString => EmptyString
  | String c s' =>
      match skip with
      | S k => removeAllFrom pat s' k
      | O => if String.prefix pat s
             then removeAllFrom pat s' (String.length pat - 1)
             else String c (removeAllFrom pat s' 0)
      end
  end.

Definition removeAll (pat s : string) : string := removeAllFrom pat s 0.

Fixpoint drop (n : nat) (s : string) : string :=
  match n, s with
  | S n', String _ s' => drop n' s'
  | _, _ => s
  end.

(** [arr.join(sep)] *)
Fixpoint join (sep : string) (l : list string) : string :=
  match l with
  | [] => EmptyString
  | [x] => x
  | x :: l' => x +:+ sep +:+ join sep l'
  end.

End JsString.

(** ** JavaScript numbers

  The numbers met here are counters, their differences, and one quotient of
  two counters.  [Fin q] carries the exact value [q]; the two infinities and
  [NaN] are the remaining values a division can produce. *)

Module JsNumber.

Inductive Number : Type :=
| NaN
| Infinity
| NegInfinity
| Fin (q : Qc).

Definition ofNat (n : nat) : Number := Fin (Qc_of_Z (Z.of_nat n)).

Definition isZero (q : Qc) : bool :=
  match (q ?= 0)%Qc with Eq => true | _ => false end.

Definition isNeg (q : Qc) : bool :=
  match (q ?= 0)%Qc with Lt => true | _ => false end.

Definition neg (x : Number) : Number :=
  match x with
  | NaN => NaN
  | Infinity => NegInfinity
  | NegInfinity => Infinity
  | Fin q => Fin (- q)%Qc
  end.

(** [x + y] *)
Definition add (x y : Number) : Number :=
  match x, y with
  | NaN, _ | _, NaN => NaN
  | Infinity, NegInfinity | NegInfinity, Infinity => NaN
  | Infinity, _ | _, Infinity => Infinity
  | NegInfinity, _ | _, NegInfinity => NegInfinity
  | Fin p, Fin q => Fin (p + q)%Qc
  end.

(** [x - y] *)
Definition sub (x y : Number) : Number := add x (neg y).

(** [x / y] on finite operands (the only ones divided here). *)
Definition div (x y : Number) : Number :=
  match x, y with
  | Fin p, Fin q =>
      if isZero q
      then if isZero p then NaN else if isNeg p then NegInfinity else Infinity
      else Fin (p / q)%Qc
  | _, _ => NaN
  end.

(** [x > y]; every comparison with [NaN] is false. *)
Definition gt (x y : Number) : bool :=
  match x, y with
  | NaN, _ | _, NaN => false
  | Infinity, Infinity => false
  | Infinity, _ => true
  | _, Infinity => false
  | NegInfinity, _ => false
  | Fin _, NegInfinity => true
  | Fin p, Fin q => match (p ?= q)%Qc with Gt => true | _ => false end
  end.

Definition zero : Number := ofNat 0.
Definition one : Number := ofNat 1.

(** [undefined + 1] is [NaN]; a number is incremented. *)
Definition plusOne (x : option Number) : Number :=
  match x with
  | None => NaN
  | Some n => add n one
  end.

End JsNumber.

(** ** Insertion-ordered dictionaries

  A [Map], and a plain object whose keys are not array indices, enumerate
  their entries in insertion order; assigning to a key that is present
  keeps its position. *)

Module JsMap.

Section Ops.
Context {V : Type}.

Definition t : Type := list (string * V).

Fixpoint get (m : t) (k : string) : option V :=
  match m with
  | [] => None
  | (k', v) :: m' => if String.eqb k' k then Some v else get m' k
  end.

Fixpoint set (m : t) (k : string) (v : V) : t :=
  match m with
  | [] => [(k, v)]
  | (k', v') :: m' =>
      if String.eqb k' k then (k, v) :: m' else (k', v') :: set m' k v
  end.

Fixpoint delete (m : t) (k : string) : t :=
  match m with
  | [] => []
  | (k', v') :: m' =>
      if String.eqb k' k then m' else (k', v') :: delete m' k
  end.

Definition size (m : t) : nat := List.length m.

(** [m.keys().next().value]: the oldest key, [undefined] when empty. *)
Definition firstKey (m : t) : option string :=
  match m with
  | [] => None
  | (k, _) :: _ => Some k
  end.

Definition keys (m : t) : list string := map fst m.

End Ops.

Arguments t : clear implicits.

End JsMap.

(** ** Array.prototype.sort

  The sort is stable; with a consistent comparator its result is the one
  an insertion sort produces.  [cmp x y > 0] asks for [x] after [y]. *)

Module JsArray.

Import JsNumber.

Fixpoint insertSorted {A : Type} (cmp : A -> A -> Number) (x : A) (l : list A)
  : list A :=
  match l with
  | [] => [x]
  | y :: l' =>
      if gt (cmp x y) zero then y :: insertSorted cmp x l' else x :: y :: l'
  end.

Definition sort {A : Type} (cmp : A -> A -> Number) (l : list A) : list A :=
  foldr (insertSorted cmp) [] l.

(** [for (let i = lo; i <= hi; i++) body] threading the loop state. *)
Definition forRange {St : Type} (lo hi : nat) (body : nat -> St -> St) (s : St) : St :=
  fold_left (fun acc i => body i acc) (seq lo (hi + 1 - lo)) s.

End JsArray.

(** ** Calls that can throw

  [M A] threads the object under execution and the log of the calls that
  left the program, and ends either with a value or with an exception. *)

Module Exn.

Inductive Outcome (A : Type) : Type :=
| Return (a : A)
| Throw.

Arguments Return {A} a.
Arguments Throw {A}.

Section Monad.
Context {St : Type}.

Definition M (A : Type) : Type := St -> Outcome A * St.

Definition ret {A : Type} (a : A) : M A := fun s => (Return a, s).

Definition bind {A B : Type} (m : M A) (k : A -> M B) : M B :=
  fun s =>
    match m s with
    | (Return a, s') => k a s'
    | (Throw, s') => (Throw, s')
    end.

Definition throw {A : Type} : M A := fun s => (Throw, s).

(** [try { body } catch (error) { handler }] *)
Definition tryCatch {A : Type} (body handler : M A) : M A :=
  fun s =>
    match body s with
    | (Return a, s') => (Return a, s')
    | (Throw, s') => handler s'
    end.

Definition getState : M St := fun s => (Return s, s).

Definition modify (f : St -> St) : M unit := fun s => (Return tt, f s).

(** An outcome decided outside the program. *)
Definition lift {A : Type} (o : Outcome A) : M A := fun s => (o, s).

End Monad.

Arguments M : clear implicits.

End Exn.

Notation "x <- m ;; k" := (Exn.bind m (fun x => k))
(at level 100, m at next level, right associativity).
Notation "m ;;; k" := (Exn.bind m (fun _ => k))
(at level 100, right associativity).

(** ** Plain objects

    A property read looks at the object's own members first and then at the
    members every plain object inherits from [Object.prototype]. *)

Module JsObject.

Import JsNumber.

Definition inheritedNames : list string :=
  [ "constructor"; "__defineGetter__"; "__defineSetter__"; "hasOwnProperty";
    "__lookupGetter__"; "__lookupSetter__"; "isPrototypeOf";
    "propertyIsEnumerable"; "toString"; "valueOf"; "__proto__";
    "toLocaleString" ].

Definition isInherited (k : string) : bool :=
  existsb (String.eqb k) inheritedNames.

(** What [object[k]] reads: an own value, an inherited member (a function,
    or for [__proto__] the prototype itself: truthy, not iterable, not a
    number), or [undefined]. *)
Inductive Read (V : Type) : Type :=
| Own (v : V)
| Inherited
| Undefined.

Arguments Own {V} v.
Arguments Inherited {V}.
Arguments Undefined {V}.

(** [table[k]] on a parsed JSON object. *)
Definition read {V : Type} (table : gmap string V) (k : string) : Read V :=
  match table !! k with
  | Some v => Own v
  | None => if isInherited k then Inherited else Undefined
  end.

(** The values a score object holds: numbers, and the text that adding 1 to
    an inherited member produces (never the text of a number). *)
Inductive Value : Type :=
| Num (n : Number)
| Text.

(** The number a value counts as in [>] and [-]. *)
Definition toNumber (v : Value) : Number :=
  match v with
  | Num n => n
  | Text => NaN
  end.

(** [scores[k]] on an object built in insertion order. *)
Definition readScore (scores : JsMap.t Value) (k : string) : Read Value :=
  match JsMap.get scores k with
  | Some v => Own v
  | None => if isInherited k then Inherited else Undefined
  end.

(** The value of [x + 1]. *)
Definition addOne (x : Read Value) : Value :=
  match x with
  | Own (Num n) => Num (plusOne (Some n))
  | Own Text => Text
  | Inherited => Text
  | Undefined => Num (plusOne None)
  end.

(** [scores[k] = v]: an own member is set, except under the name
    [__proto__], an inherited accessor whose setter ignores a value that is
    not an object. *)
Definition assign (scores : JsMap.t Value) (k : string) (v : Value)
  : JsMap.t Value :=
  if String.eqb k "__proto__" then scores else JsMap.set scores k v.

(** The array index a property name denotes, if any: the decimal numeral,
    without a leading zero, of a number below 2^32 - 1. *)
Definition digit (c : ascii) : option N :=
  let n := N_of_ascii c in
  if ((48 <=? n) && (n <=? 57))%N then Some (n - 48)%N else None.

Fixpoint numeral (s : string) (acc : N) : option N :=
  match s with
  | EmptyString => Some acc
  | String c s' =>
      match digit c with
      | Some d => numeral s' (10 * acc + d)%N
      | None => None
      end
  end.

Definition arrayIndex (k : string) : option N :=
  match k with
  | EmptyString => None
  | String c rest =>
      if Ascii.eqb c "0" && negb (String.eqb rest EmptyString) then None
      else match numeral k 0 with
           | Some n => if (n <? 4294967295)%N then Some n else None
           | None => None
           end
  end.

Fixpoint insertIndexed {V : Type} (n : N) (e : string * V)
         (l : list (N * (string * V))) : list (N * (string * V)) :=
  match l with
  | [] => [(n, e)]
  | (n', e') :: l' =>
      if (n <? n')%N then (n, e) :: l else (n', e') :: insertIndexed n e l'
  end.

(** The members named by an array index, in ascending order of the index. *)
Fixpoint indexed {V : Type} (m : JsMap.t V) : list (N * (string * V)) :=
  match m with
  | [] => []
  | e :: m' =>
      match arrayIndex (fst e) with
      | Some n => insertIndexed n e (indexed m')
      | None => indexed m'
      end
  end.

(** The other members, in insertion order. *)
Definition named {V : Type} (m : JsMap.t V) : JsMap.t V :=
  List.filter (fun e => match arrayIndex (fst e) with
                        | Some _ => false
                        | None => true
                        end) m.

(** [Object.entries(m)] *)
Definition entries {V : Type} (m : JsMap.t V) : list (string * V) :=
  map snd (indexed m) ++ named m.

End JsObject.

(** ** class LocalRAG *)

Module LocalRAG.

Import JsString JsNumber JsArray JsObject Exn.

(** The search-index object: the parsed document with its [keywords] table
    (keyword to the categories it points at), or an object without that
    member, as the empty object the constructor installs. *)
Record SearchIndex : Type := {
  keywords : option (gmap string (list string))
}.

Record LocalRAG : Type := {
  searchIndex : SearchIndex;
  isLoaded : bool;
  categories : list string
}.

Definition constructor : LocalRAG := {|
  searchIndex := {| keywords := None |};
  isLoaded := false;
  categories := ["banking"; "invoicing"; "payroll"; "reports"; "inventory"]
|}.

(** [initialize]: the outcome of fetching and parsing the index document is
    [Some] document or [None] for a failure, which the method catches. *)
Definition initialize (fetched : option SearchIndex) (self : LocalRAG)
  : bool * LocalRAG :=
  if isLoaded self then (true, self)
  else match fetched with
       | Some doc =>
           (true, {| searchIndex := doc; isLoaded := true;
                     categories := categories self |})
       | None => (false, self)
       end.

(** [categoryScores[category] += 1] *)
Definition bump (categoryScores : JsMap.t Value) (category : string)
  : JsMap.t Value :=
  assign categoryScores category (addOne (readScore categoryScores category)).

(** One turn of the loop over the keywords.  Reading a member of the missing
    [keywords] table throws; so does iterating over an inherited member,
    which is truthy but not iterable. *)
Definition scoreKeyword (self : LocalRAG) (categoryScores : JsMap.t Value)
           (keyword : string) : Outcome (JsMap.t Value) :=
  match keywords (searchIndex self) with
  | None => Throw
  | Some table =>
      match read table keyword with
      | Own cats => Return (fold_left bump cats categoryScores)
      | Inherited => Throw
      | Undefined => Return categoryScores
      end
  end.

Fixpoint scoreKeywords (self : LocalRAG) (kws : list string)
         (categoryScores : JsMap.t Value) : Outcome (JsMap.t Value) :=
  match kws with
  | [] => Return categoryScores
  | keyword :: kws' =>
      match scoreKeyword self categoryScores keyword with
      | Return scores => scoreKeywords self kws' scores
      | Throw => Throw
      end
  end.

(** [this.categories.forEach(cat => categoryScores[cat] = 0)] *)
Definition initialScores (self : LocalRAG) : JsMap.t Value :=
  fold_left (fun scores cat => assign scores cat (Num zero))
            (categories self) [].

Definition identifyRelevantCategories (self : LocalRAG) (kws : list string)
  : Outcome (list string) :=
  match scoreKeywords self kws (initialScores self) with
  | Return categoryScores =>
      Return
        (take 2
           (map fst
              (sort (fun x y => sub (toNumber (snd y)) (toNumber (snd x)))
                    (List.filter (fun e => gt (toNumber (snd e)) zero)
                                 (entries categoryScores)))))
  | Throw => Throw
  end.

(** The distance matrix: [matrix[j][i]]. *)
Definition cell (matrix : list (list nat)) (j i : nat) : nat :=
  (matrix !!! j) !!! i.

Definition setCell (matrix : list (list nat)) (j i v : nat) : list (list nat) :=
  <[j := <[i := v]> (matrix !!! j)]> matrix.

Definition sameChar (x y : option ascii) : bool :=
  match x, y with
  | Some c, Some d => Ascii.eqb c d
  | None, None => true
  | _, _ => false
  end.

Definition min3 (x y z : nat) : nat := Nat.min (Nat.min x y) z.

Definition calculateLevenshteinDistance (a b : string) : nat :=
  let la := String.length a in
  let lb := String.length b in
  let matrix := replicate (lb + 1) (replicate (la + 1) 0) in
  let matrix := forRange 0 la (fun i m => setCell m 0 i i) matrix in
  let matrix := forRange 0 lb (fun j m => setCell m j 0 j) matrix in
  let matrix :=
    forRange 1 lb
      (fun j m =>
         forRange 1 la
           (fun i m =>
              let cost :=
                if sameChar (String.get (i - 1) a) (String.get (j - 1) b)
                then 0 else 1 in
              setCell m j i
                (min3 (cell m (j - 1) i + 1)
                      (cell m j (i - 1) + 1)
                      (cell m (j - 1) (i - 1) + cost)))
           m)
      matrix in
  cell matrix lb la.

Definition isKeywordMatch (userKeyword triggerKeyword : string) : bool :=
  if String.eqb userKeyword triggerKeyword then true
  else if includes userKeyword triggerKeyword
          || includes triggerKeyword userKeyword then true
  else if (calculateLevenshteinDistance userKeyword triggerKeyword <=? 1)
          && (4 <=? Nat.min (String.length userKeyword)
                            (String.length triggerKeyword)) then true
  else false.

Definition calculateRelevanceScore (userKeywords triggerKeywords : list string)
  : Number :=
  let totalTriggers := List.length triggerKeywords in
  let matches :=
    fold_left
      (fun matches trigger =>
         if existsb (fun userKeyword => isKeywordMatch userKeyword trigger)
                    userKeywords
         then matches + 1 else matches)
      triggerKeywords 0 in
  div (ofNat matches) (ofNat totalTriggers).

(** The test [score > 0.3] that [searchRelevantKnowledge] applies to each
    entry before keeping it. *)
Definition aboveThreshold (score : Number) : bool :=
  gt score (Fin (Q2Qc (3 # 10))).

(** [s.replace(/[^\w\s]/g, ' ')] *)
Fixpoint punctuationToSpace (s : string) : string :=
  match s with
  | EmptyString => EmptyString
  | String c s' =>
      String (if isWord c || isSpace c then c else " "%char)
             (punctuationToSpace s')
  end.

(** [s.split(/\s+/)]: the pieces between maximal runs of white space, an
    empty piece standing where the text starts or ends with such a run. *)
Fixpoint splitSpacesFrom (s : string) (inRun : bool) : list string :=
  match s with
  | EmptyString => [EmptyString]
  | String c s' =>
      if isSpace c
      then if inRun then splitSpacesFrom s' true
           else EmptyString :: splitSpacesFrom s' true
      else match splitSpacesFrom s' false with
           | piece :: rest => String c piece :: rest
           | [] => [String c EmptyString]
           end
  end.

Definition splitSpaces (s : string) : list string := splitSpacesFrom s false.

Definition commonPhrases : list string :=
  [ "bank connection"; "direct deposit"; "profit loss"; "balance sheet";
    "cash flow"; "pay invoice"; "online banking"; "credit card";
    "tax calculation"; "inventory tracking"; "stock levels" ].

Definition extractPhrases (message : string) : list string :=
  List.filter (fun phrase => includes message phrase) commonPhrases.

Definition extractKeywords (message : string) : list string :=
  let words :=
    List.filter (fun word => 2 <? String.length word)
                (splitSpaces (punctuationToSpace (toLowerCase message))) in
  let phrases := extractPhrases (toLowerCase message) in
  words ++ phrases.

End LocalRAG.

(** ** class SmolLMBrain (the variant with the response cache and retrieval) *)

Module SmolLMBrain.

Import JsString Exn.

(** Calls that leave the program, in the order they are issued. *)
Inductive Event : Type :=
| ImportRuntime
| ConstructModel
| LoadModelFromUrl
| FetchSearchIndex
| Retrieve (userMessage : string)
| CreateCompletion (prompt : string).

Record SmolLMBrain : Type := {
  isLoading : bool;
  isReady : bool;
  llamaCpp : option unit;
  wasmConfig : option unit;
  model : option unit;
  responseCache : JsMap.t string;
  maxCacheSize : nat;
  rag : LocalRAG.LocalRAG;
  ragReady : bool
}.

Definition constructor : SmolLMBrain := {|
  isLoading := false;
  isReady := false;
  llamaCpp := None;
  wasmConfig := None;
  model := None;
  responseCache := [];
  maxCacheSize := 50;
  rag := LocalRAG.constructor;
  ragReady := false
|}.

Definition setIsLoading (v : bool) (s : SmolLMBrain) : SmolLMBrain :=
  {| isLoading := v; isReady := isReady s; llamaCpp := llamaCpp s;
     wasmConfig := wasmConfig s; model := model s;
     responseCache := responseCache s; maxCacheSize := maxCacheSize s;
     rag := rag s; ragReady := ragReady s |}.

Definition setIsReady (v : bool) (s : SmolLMBrain) : SmolLMBrain :=
  {| isLoading := isLoading s; isReady := v; llamaCpp := llamaCpp s;
     wasmConfig := wasmConfig s; model := model s;
     responseCache := responseCache s; maxCacheSize := maxCacheSize s;
     rag := rag s; ragReady := ragReady s |}.

Definition setRuntime (l w : option unit) (s : SmolLMBrain) : SmolLMBrain :=
  {| isLoading := isLoading s; isReady := isReady s; llamaCpp := l;
     wasmConfig := w; model := model s;
     responseCache := responseCache s; maxCacheSize := maxCacheSize s;
     rag := rag s; ragReady := ragReady s |}.

Definition setModel (v : option unit) (s : SmolLMBrain) : SmolLMBrain :=
  {| isLoading := isLoading s; isReady := isReady s; llamaCpp := llamaCpp s;
     wasmConfig := wasmConfig s; model := v;
     responseCache := responseCache s; maxCacheSize := maxCacheSize s;
     rag := rag s; ragReady := ragReady s |}.

Definition setResponseCache (c : JsMap.t string) (s : SmolLMBrain) : SmolLMBrain :=
  {| isLoading := isLoading s; isReady := isReady s; llamaCpp := llamaCpp s;
     wasmConfig := wasmConfig s; model := model s;
     responseCache := c; maxCacheSize := maxCacheSize s;
     rag := rag s; ragReady := ragReady s |}.

Definition setRag (r : LocalRAG.LocalRAG) (ready : bool) (s : SmolLMBrain)
  : SmolLMBrain :=
  {| isLoading := isLoading s; isReady := isReady s; llamaCpp := llamaCpp s;
     wasmConfig := wasmConfig s; model := model s;
     responseCache := responseCache s; maxCacheSize := maxCacheSize s;
     rag := r; ragReady := ready |}.

(** The object under execution together with the log of external calls. *)
Record Machine : Type := {
  this : SmolLMBrain;
  log : list Event
}.

Definition update (f : SmolLMBrain -> SmolLMBrain) : M Machine unit :=
  modify (fun m => {| this := f (this m); log := log m |}).

Definition record (e : Event) : M Machine unit :=
  modify (fun m => {| this := this m; log := log m ++ [e] |}).

Definition getThis : M Machine SmolLMBrain :=
  m <- getState ;; ret (this m).

(** An awaited external call: it is logged, then it returns or throws as the
    environment decides. *)
Definition call {A : Type} (e : Event) (o : Outcome A) : M Machine A :=
  record e ;;; lift o.

(** What the outside world answers while the model is being loaded. *)
Record LoadEnv : Type := {
  importRuntime : Outcome unit;
  constructModel : Outcome unit;
  loadModelFromUrl : Outcome unit;
  fetchSearchIndex : option LocalRAG.SearchIndex
}.

(** What the outside world answers during one chat request: the context
    block retrieved for a message (layer detection, knowledge search and
    formatting read documents fetched at run time) and the completion of a
    prompt. *)
Record ChatEnv : Type := {
  retrieve : string -> Outcome string;
  createCompletion : string -> Outcome string
}.

Definition isSome {A : Type} (o : option A) : bool :=
  match o with Some _ => true | None => false end.

Definition loadLlamaCppWasm (env : LoadEnv) : M Machine unit :=
  tryCatch
    (call ImportRuntime (importRuntime env) ;;;
     update (setRuntime (Some tt) (Some tt)))
    (update (setRuntime None None)).

Definition loadModel (env : LoadEnv) : M Machine unit :=
  tryCatch
    (self <- getThis ;;
     if negb (isSome (llamaCpp self)) || negb (isSome (wasmConfig self))
     then ret tt
     else
       call ConstructModel (constructModel env) ;;;
       update (setModel (Some tt)) ;;;
       call LoadModelFromUrl (loadModelFromUrl env))
    (update (setModel None)).

Definition initializeRAG (env : LoadEnv) : M Machine unit :=
  tryCatch
    (self <- getThis ;;
     (if LocalRAG.isLoaded (rag self) then ret tt
      else record FetchSearchIndex) ;;;
     let '(ready, rag') := LocalRAG.initialize (fetchSearchIndex env) (rag self) in
     update (setRag rag' ready))
    (self <- getThis ;; update (setRag (rag self) false)).

Definition initialize (env : LoadEnv) : M Machine bool :=
  self <- getThis ;;
  if isLoading self || isReady self then ret (isReady self)
  else
    tryCatch
      (update (setIsLoading true) ;;;
       loadLlamaCppWasm env ;;;
       loadModel env ;;;
       initializeRAG env ;;;
       update (setIsReady true) ;;;
       update (setIsLoading false) ;;;
       ret true)
      (update (setIsLoading false) ;;;
       ret false).

Record Status : Type := {
  status : string;
  statusMessage : string
}.

Definition getStatus (self : SmolLMBrain) : Status :=
  if isLoading self
  then {| status := "loading"; statusMessage := "Loading SmolLM2..." |}
  else if isReady self
  then {| status := "ready"; statusMessage := "SmolLM2 ready" |}
  else {| status := "offline"; statusMessage := "SmolLM2 not loaded" |}.

(** [cleanResponse] *)
Definition isSentenceEnd (c : ascii) : bool :=
  (code c =? 46) || (code c =? 33) || (code c =? 63).

(** [text.split(/[.!?]+/)]: the pieces between maximal runs of sentence
    marks.  [inRun] tells that the previous character was a mark; the head
    of the result is the piece still being read. *)
Fixpoint splitSentencesFrom (s : string) (inRun : bool) : list string :=
  match s with
  | EmptyString => [EmptyString]
  | String c s' =>
      if isSentenceEnd c
      then if inRun then splitSentencesFrom s' true
           else EmptyString :: splitSentencesFrom s' true
      else match splitSentencesFrom s' false with
           | piece :: rest => String c piece :: rest
           | [] => [String c EmptyString]
           end
  end.

Definition splitSentences (s : string) : list string :=
  splitSentencesFrom s false.

Definition stripAssistant (text : string) : string :=
  if String.prefix "assistant" (toLowerCase text)
  then trimStart (drop 9 text)
  else text.

Definition cleanResponse (text : string) : string :=
  let text :=
    trim (stripAssistant
            (removeAll "<|im_end|>" (removeAll "<|im_start|>" text))) in
  let sentences := splitSentences text in
  if (1 <? List.length sentences)
     && (String.length (trim (List.last sentences EmptyString)) <? 10)
  then join "." (removelast sentences) +:+ "."
  else text.

(** [normalizeMessage] *)
Fixpoint keepWordAndSpace (s : string) : string :=
  match s with
  | EmptyString => EmptyString
  | String c s' =>
      if isWord c || isSpace c then String c (keepWordAndSpace s')
      else keepWordAndSpace s'
  end.

Fixpoint collapseSpacesFrom (s : string) (inRun : bool) : string :=
  match s with
  | EmptyString => EmptyString
  | String c s' =>
      if isSpace c
      then if inRun then collapseSpacesFrom s' true
           else String " " (collapseSpacesFrom s' true)
      else String c (collapseSpacesFrom s' false)
  end.

Definition normalizeMessage (message : string) : string :=
  substring0 100
    (trim (collapseSpacesFrom (keepWordAndSpace (toLowerCase message)) false)).

Definition cacheResponse (key response : string) (self : SmolLMBrain)
  : SmolLMBrain :=
  let cache := responseCache self in
  let cache :=
    if maxCacheSize self <=? JsMap.size cache
    then match JsMap.firstKey cache with
         | Some firstKey => JsMap.delete cache firstKey
         | None => cache
         end
    else cache in
  setResponseCache (JsMap.set cache key response) self.

Definition badPhrases : list string :=
  [ "I'm sorry for the confusion";
    "I'm unable to provide";
    "I'm not equipped to";
    "I can't help with";
    "I don't have access";
    "as a UDAS-guided AI";
    "I'm designed to assist you with your business needs" ].

Definition isGenericResponse (text : string) : bool :=
  let hasGenericAvoidance :=
    existsb (fun phrase => includes (toLowerCase text) (toLowerCase phrase))
            badPhrases in
  let tooShortAndGeneric :=
    (String.length text <? 30)
    && (includes (toLowerCase text) "help"
        || includes (toLowerCase text) "assist") in
  hasGenericAvoidance || tooShortAndGeneric.

Definition bankingAnswer : string :=
  "I understand how frustrating bank connection issues can be! Let's work through this systematically using UDAS troubleshooting.

First, let's check the User layer - have you successfully logged into your bank's website today using the same credentials you use for QuickBooks? I'm asking this because banks often require you to log in directly before allowing third-party connections.

While you check that, here's a quick tip: Most connection issues resolve when you verify your online banking is active first.".

Definition invoicingAnswer : string :=
  "Create professional invoices in QuickBooks:

1. Go to **Sales** → **Invoices** → **Create Invoice**
2. Select or add customer details
3. Add products/services with quantities and rates
4. Set payment terms and due date
5. Email directly or download PDF

**Pro tip**: Set up recurring invoices for regular clients under **Recurring Transactions**.".

Definition expensesAnswer : string :=
  "Track expenses efficiently:

1. **Mobile**: Use QuickBooks app to photograph receipts instantly
2. **Desktop**: Go to **Expenses** → **Add Expense**
3. Enter vendor, amount, and category
4. Upload receipt image
5. Link to projects if applicable

**Smart feature**: Receipt capture auto-extracts vendor, date, and amount data.".

Definition payrollAnswer : string :=
  "QuickBooks Payroll setup:

1. **Upgrade**: Payroll requires subscription ($45/month + $6/employee)
2. **Setup**: Go to **Payroll** → **Get Started**
3. **Employees**: Add worker details, tax info, pay rates
4. **Schedule**: Set pay frequency (weekly, bi-weekly, monthly)
5. **Run**: Process payroll and handle tax filings automatically

**Includes**: Direct deposit, tax calculations, W-2s, and compliance.".

Definition reportsAnswer : string :=
  "Generate key financial reports:

**Profit & Loss**: Shows income vs expenses over time
**Balance Sheet**: Assets, liabilities, and equity snapshot
**Cash Flow**: Track money in/out by period

**Steps**: **Reports** → Search report name → Select date range → **Run Report**

**Customize**: Filter by class, location, or customer for detailed analysis.".

Definition taxAnswer : string :=
  "QuickBooks tax features:

**Sales Tax**: **Taxes** → **Sales Tax** → Set up rates and track automatically
**1099s**: **Payroll** → **Contractors** → Generate 1099-NEC forms
**Deductions**: Categorize expenses properly for tax writeoffs
**Export**: Send data directly to TurboTax or accountant

**Year-end**: Run tax summary reports and backup your data.".

Definition inventoryAnswer : string :=
  "Manage inventory in QuickBooks:

1. **Enable**: **Settings** → **Account & Settings** → **Sales** → Turn on inventory tracking
2. **Add Items**: **Sales** → **Products & Services** → **New** → **Inventory**
3. **Set Details**: SKU, cost, sale price, quantity on hand
4. **Reorder**: Set reorder points for low stock alerts
5. **Track**: Quantities auto-update with sales and purchases

**Reports**: Use inventory reports to monitor stock levels and valuation.".

Definition troubleshootingAnswer : string :=
  "QuickBooks troubleshooting steps:

**Browser Issues**:
• Clear cache and cookies
• Try incognito/private mode
• Disable browser extensions
• Update browser to latest version

**Sync Problems**:
• Check internet connection
• Update bank credentials
• Refresh browser page

**Need Help?**: Contact QuickBooks Support at **1-800-446-8848** or use in-app chat.".

Definition defaultAnswer : string :=
  "I'm your QuickBooks Online AI assistant! I can help with:

💰 **Banking** - Connect accounts, categorize transactions
📄 **Invoicing** - Create professional invoices, set up recurring billing
📊 **Reports** - P&L, Balance Sheet, Cash Flow analysis
💼 **Expenses** - Receipt capture, expense tracking, tax deductions
👥 **Payroll** - Employee management, tax compliance, direct deposit
📦 **Inventory** - Stock tracking, reorder alerts, product management
🔧 **Setup & Support** - Account configuration, troubleshooting

**What specific QuickBooks task can I help you with today?**".

Definition promptSystemIntro : string :=
  "<|im_start|>system
You are a QuickBooks Online expert who uses UDAS methodology to systematically troubleshoot issues.

UDAS Framework:
- USER layer: Check permissions, user training, workflow issues first
- DATA layer: Look for duplicates, missing entries, corrupted data
- APPLICATION layer: Browser problems, cache issues, QuickBooks bugs
- SYSTEM layer: Internet connectivity, external service issues

Response Format:
1. Acknowledge the issue with empathy
2. Ask ONE specific diagnostic question (start with User layer)
3. Briefly explain why you're asking this question
4. Provide a helpful tip while they investigate

Example Response:
".

Definition promptSystemExample : string :=
  "I understand how frustrating bank connection issues can be! Let's solve this systematically.

First, let's check the User layer - have you successfully logged into your bank's website today using the same credentials? I'm asking because banks often require direct login before allowing third-party connections.

While you check that, here's a tip: Most connection issues resolve when you verify your online banking is active first.".

Definition promptUserOpen : string :=
  "<|im_end|>
<|im_start|>user
".

Definition promptAssistantOpen : string :=
  "<|im_end|>
<|im_start|>assistant
".


Definition stillLoading : string :=
  "🤖 SmolLM2 model is still loading. Please wait...".

Definition getQuickBooksGuidance (userMessage : string) : string :=
  let message := toLowerCase userMessage in
  if includes message "bank" || includes message "connect"
     || includes message "link"
  then bankingAnswer
  else if includes message "invoice" || includes message "bill"
          || includes message "customer"
  then invoicingAnswer
  else if includes message "expense" || includes message "receipt"
          || includes message "cost"
  then expensesAnswer
  else if includes message "payroll" || includes message "employee"
          || includes message "salary"
  then payrollAnswer
  else if includes message "report" || includes message "profit"
          || includes message "loss" || includes message "financial"
  then reportsAnswer
  else if includes message "tax" || includes message "1099"
          || includes message "deduction"
  then taxAnswer
  else if includes message "inventory" || includes message "product"
          || includes message "stock"
  then inventoryAnswer
  else if includes message "error" || includes message "problem"
          || includes message "not working" || includes message "issue"
  then troubleshootingAnswer
  else defaultAnswer.

Definition doubleQuote : string := String (ascii_of_nat 34) EmptyString.

Definition buildPrompt (ragContext userMessage : string) : string :=
  promptSystemIntro +:+ doubleQuote +:+ promptSystemExample +:+ doubleQuote
  +:+ ragContext +:+ promptUserOpen +:+ userMessage +:+ promptAssistantOpen.

Record Response : Type := {
  success : bool;
  message : string;
  source : option string
}.

(** The body of the [try] block of [generateResponse]: [Some] response when
    the block returns from the method, [None] when control falls out of it. *)
Definition tryInference (env : ChatEnv) (userMessage cacheKey : string)
  : M Machine (option Response) :=
  self <- getThis ;;
  if isSome (model self) && isSome (llamaCpp self)
  then
    ragContext <-
      (if ragReady self
       then call (Retrieve userMessage) (retrieve env userMessage)
       else ret EmptyString) ;;
    let prompt := buildPrompt ragContext userMessage in
    response <- call (CreateCompletion prompt) (createCompletion env prompt) ;;
    let text := cleanResponse response in
    if (15 <? String.length text) && negb (isGenericResponse text)
    then
      update (cacheResponse cacheKey text) ;;;
      ret (Some {| success := true; message := text;
                   source := Some "smollm2-local" |})
    else ret None
  else ret None.

Definition generateResponse (env : ChatEnv) (userMessage : string)
  : M Machine Response :=
  self <- getThis ;;
  if negb (isReady self)
  then ret {| success := false; message := stillLoading; source := None |}
  else
    let cacheKey := normalizeMessage userMessage in
    match JsMap.get (responseCache self) cacheKey with
    | Some (String c rest) =>
        ret {| success := true; message := String c rest;
               source := Some "cache" |}
    | _ =>
        answered <- tryCatch (tryInference env userMessage cacheKey)
                             (ret None) ;;
        match answered with
        | Some response => ret response
        | None =>
            ret {| success := true;
                   message := getQuickBooksGuidance userMessage;
                   source := Some "enhanced-rules" |}
        end
    end.

End SmolLMBrain.

(** ** class FallbackBrain *)

Module FallbackBrain.

Definition generateResponse (userMessage : string) : SmolLMBrain.Response :=
  {| SmolLMBrain.success := true;
     SmolLMBrain.message := SmolLMBrain.getQuickBooksGuidance userMessage;
     SmolLMBrain.source := Some "rules" |}.

End FallbackBrain.

(** ** Reference definitions the code is compared with *)

Module Reference.

Import JsString.

(** *** Edit distance

    The classic recursive definition: dropping a character of either word
    or replacing one by another costs 1, equal characters cost nothing. *)
Definition substitutionCost (x y : ascii) : nat :=
  if Ascii.eqb x y then 0 else 1.

Fixpoint levenshtein (s : list ascii) : list ascii -> nat :=
  match s with
  | [] => fun t => List.length t
  | x :: s' =>
      fix against (t : list ascii) : nat :=
        match t with
        | [] => S (List.length s')
        | y :: t' =>
            LocalRAG.min3 (levenshtein s' t + 1)
                          (against t' + 1)
                          (levenshtein s' t' + substitutionCost x y)
        end
  end.

(** *** Ordered keyword groups

    The first group one of whose keywords occurs in the message decides
    the answer; without any, the default answer is given. *)
Definition firstMatch (groups : list (list string * string))
           (default message : string) : string :=
  match find (fun g => existsb (includes message) (fst g)) groups with
  | Some g => snd g
  | None => default
  end.

(** The groups as the specification lists them. *)
Definition specifiedGroups : list (list string * string) :=
  [ (["banking"; "connect"; "link"], SmolLMBrain.bankingAnswer);
    (["invoice"; "bill"; "customer"], SmolLMBrain.invoicingAnswer);
    (["expense"; "receipt"; "cost"], SmolLMBrain.expensesAnswer);
    (["payroll"; "employee"; "salary"], SmolLMBrain.payrollAnswer);
    (["report"; "profit"; "loss"; "financial"], SmolLMBrain.reportsAnswer);
    (["tax"; "1099"; "deduction"], SmolLMBrain.taxAnswer);
    (["inventory"; "product"; "stock"], SmolLMBrain.inventoryAnswer);
    (["error"; "problem"; "issue"], SmolLMBrain.troubleshootingAnswer) ].

Definition specifiedRuleFallback (userMessage : string) : string :=
  firstMatch specifiedGroups SmolLMBrain.defaultAnswer (toLowerCase userMessage).

(** The groups with the keywords the method tests. *)
Definition testedGroups : list (list string * string) :=
  [ (["bank"; "connect"; "link"], SmolLMBrain.bankingAnswer);
    (["invoice"; "bill"; "customer"], SmolLMBrain.invoicingAnswer);
    (["expense"; "receipt"; "cost"], SmolLMBrain.expensesAnswer);
    (["payroll"; "employee"; "salary"], SmolLMBrain.payrollAnswer);
    (["report"; "profit"; "loss"; "financial"], SmolLMBrain.reportsAnswer);
    (["tax"; "1099"; "deduction"], SmolLMBrain.taxAnswer);
    (["inventory"; "product"; "stock"], SmolLMBrain.inventoryAnswer);
    (["error"; "problem"; "not working"; "issue"],
     SmolLMBrain.troubleshootingAnswer) ].

(** *** Category ranking *)



(** Position of the first occurrence of [c] in [l]. *)
Fixpoint position (c : string) (l : list string) : nat :=
  match l with
  | [] => 0
  | d :: l' => if String.eqb d c then 0 else S (position c l')
  end.

(** [c1] ranks before [c2]: a higher score, or the same score and an
    earlier declaration. *)
Definition ranksBefore (score : string -> nat) (declared : list string)
           (c1 c2 : string) : Prop :=
  score c2 < score c1
  \/ (score c1 = score c2 /\ position c1 declared < position c2 declared).

(** *** States the pipeline can be in

    The object as constructed, and whatever [initialize] and
    [generateResponse] make of it. *)
Inductive reachable : SmolLMBrain.Machine -> Prop :=
| reachable_new :
    reachable {| SmolLMBrain.this := SmolLMBrain.constructor;
                 SmolLMBrain.log := [] |}
| reachable_initialize env m :
    reachable m -> reachable (snd (SmolLMBrain.initialize env m))
| reachable_generateResponse env userMessage m :
    reachable m ->
    reachable (snd (SmolLMBrain.generateResponse env userMessage m)).

(** *** Conversations

    The requests are served one after the other. *)
Fixpoint serve (requests : list (SmolLMBrain.ChatEnv * string))
  : Exn.M SmolLMBrain.Machine (list SmolLMBrain.Response) :=
  match requests with
  | [] => Exn.ret []
  | (env, userMessage) :: requests' =>
      r <- SmolLMBrain.generateResponse env userMessage ;;
      rs <- serve requests' ;;
      Exn.ret (r :: rs)
  end.

(** *** Responses by provenance *)

Definition rulesAnswer (userMessage : string) : SmolLMBrain.Response :=
  {| SmolLMBrain.success := true;
     SmolLMBrain.message := SmolLMBrain.getQuickBooksGuidance userMessage;
     SmolLMBrain.source := Some "enhanced-rules" |}.

Definition cacheAnswer (text : string) : SmolLMBrain.Response :=
  {| SmolLMBrain.success := true;
     SmolLMBrain.message := text;
     SmolLMBrain.source := Some "cache" |}.

Definition modelAnswer (text : string) : SmolLMBrain.Response :=
  {| SmolLMBrain.success := true;
     SmolLMBrain.message := text;
     SmolLMBrain.source := Some "smollm2-local" |}.

(** A cache hit: the key is present with a non-empty text. *)
Definition cacheHit (self : SmolLMBrain.SmolLMBrain) (key text : string)
  : Prop :=
  JsMap.get (SmolLMBrain.responseCache self) key = Some text
  /\ text <> EmptyString.

(** The new object, before any external call. *)
Definition fresh : SmolLMBrain.Machine :=
  {| SmolLMBrain.this := SmolLMBrain.constructor; SmolLMBrain.log := [] |}.

(** A sub-step of loading the inference backend fails. *)
Definition backendFails (env : SmolLMBrain.LoadEnv) : Prop :=
  SmolLMBrain.importRuntime env = Exn.Throw
  \/ SmolLMBrain.constructModel env = Exn.Throw
  \/ SmolLMBrain.loadModelFromUrl env = Exn.Throw.

(** *** The cache *)

(** Caching the entries one after the other. *)
Definition cacheAll (entries : list (string * string))
           (self : SmolLMBrain.SmolLMBrain) : SmolLMBrain.SmolLMBrain :=
  fold_left (fun s e => SmolLMBrain.cacheResponse (fst e) (snd e) s)
            entries self.

(** The cache of a reachable pipeline: distinct keys, no empty text, and
    the capacity set by the constructor. *)
Definition cacheWF (self : SmolLMBrain.SmolLMBrain) : Prop :=
  NoDup (JsMap.keys (SmolLMBrain.responseCache self))
  /\ Forall (fun e => snd e <> EmptyString) (SmolLMBrain.responseCache self)
  /\ SmolLMBrain.maxCacheSize self = 50.

(** [key] holds [text] and at most [n] entries are newer. *)
Definition holds (cache : JsMap.t string) (key text : string) (n : nat)
  : Prop :=
  exists older newer,
    cache = older ++ (key, text) :: newer
    /\ (key ∉ JsMap.keys older)
    /\ List.length newer <= n.

(** *** Scores *)

(** The order a stable descending sort by [key] produces, [before] being
    the order of the input. *)
Definition sortedBy {A : Type} (key : A -> nat) (before : A -> A -> Prop)
           (x y : A) : Prop :=
  key y < key x \/ (key x = key y /\ before x y).

(** The score object restricted to the declared categories. *)
Definition tally (f : string -> nat) (cats : list string)
  : JsMap.t JsObject.Value :=
  map (fun c => (c, JsObject.Num (JsNumber.ofNat (f c)))) cats.

Definition occurrences (c : string) (l : list string) : nat :=
  List.length (List.filter (String.eqb c) l).

(** An entry that can never count: not a number, and staying so. *)
Definition inert (e : string * JsObject.Value) : Prop :=
  snd e = JsObject.Num JsNumber.NaN \/ snd e = JsObject.Text.

Definition bumped (f : string -> nat) (c : string) : string -> nat :=
  fun x => if String.eqb x c then S (f x) else f x.

(** How often the categories listed for [keyword] name [category]. *)
Definition hits (table : gmap string (list string))
           (keyword category : string) : nat :=
  match table !! keyword with
  | Some cats => occurrences category cats
  | None => 0
  end.

(** The number of times the table lists [category] for the keywords. *)
Fixpoint totalHits (table : gmap string (list string)) (kws : list string)
         (category : string) : nat :=
  match kws with
  | [] => 0
  | k :: kws' => hits table k category + totalHits table kws' category
  end.

(** No keyword reads an inherited member of the table. *)
Definition ownOrAbsent (table : gmap string (list string))
           (kws : list string) : bool :=
  forallb (fun k => match JsObject.read table k with
                    | JsObject.Inherited => false
                    | _ => true
                    end) kws.

(** The names a score object keeps apart and in insertion order: not the
    accessor [__proto__], not an array index. *)
Definition plainName (c : string) : bool :=
  negb (String.eqb c "__proto__")
  && match JsObject.arrayIndex c with
     | Some _ => false
     | None => true
     end.

(** [result] is the ranking by [score], cut after two: the first two of
    exactly the declared categories with a positive score, higher scores
    first, equal scores in declared order. *)
Definition topTwoBy (score : string -> nat) (declared result : list string)
  : Prop :=
  exists ranked,
    result = take 2 ranked
    /\ ranked ≡ₚ List.filter (fun c => 0 <? score c) declared
    /\ StronglySorted (ranksBefore score declared) ranked.

(** *** Shapes of keywords *)



(** *** The distance matrix *)

Definition wfMatrix (la lb : nat) (m : list (list nat)) : Prop :=
  List.length m = lb + 1
  /\ forall j, j <= lb -> List.length (m !!! j) = la + 1.

(** Distance between the first [i] characters of one word and the first
    [j] characters of the other. *)
Definition prefixDistance (al bl : list ascii) (i j : nat) : nat :=
  levenshtein (take i al) (take j bl).

(** The cells filled so far hold the prefix distances: row 0, column 0,
    the rows before [j], and row [j] up to column [i]. *)
Definition filled (al bl : list ascii) (j i : nat) (m : list (list nat))
  : Prop :=
  forall j' i',
    j' <= List.length bl -> i' <= List.length al ->
    j' = 0 \/ i' = 0 \/ j' < j \/ (j' = j /\ i' < i) ->
    LocalRAG.cell m j' i' = prefixDistance al bl i' j'.

End Reference.

(** ** Concrete environments and inputs *)

Module Samples.

Import Exn SmolLMBrain.

Definition runtimeMissing : LoadEnv :=
  {| importRuntime := Throw;
     constructModel := Return tt;
     loadModelFromUrl := Return tt;
     fetchSearchIndex := None |}.

Definition everythingLoads : LoadEnv :=
  {| importRuntime := Return tt;
     constructModel := Return tt;
     loadModelFromUrl := Return tt;
     fetchSearchIndex := Some {| LocalRAG.keywords := Some ∅ |} |}.

(** The pipeline after a successful [initialize]. *)
Definition loaded : Machine := snd (initialize everythingLoads Reference.fresh).

(** A backend that answers every prompt with the same text. *)
Definition answering (text : string) : ChatEnv :=
  {| retrieve := fun _ => Return EmptyString;
     createCompletion := fun _ => Return text |}.

Definition reconnect : string :=
  "Open the Banking tab and reconnect your account.".

(** Fifty-one answers under pairwise distinct keys. *)
Definition sampleEntries : list (string * string) :=
  map (fun n => (String.string_of_list_ascii (repeat "q"%char (S n)),
                 reconnect))
      (seq 0 51).

(** Fifty further questions, each answered by the model. *)
Definition fiftyOthers (env : ChatEnv) : list (ChatEnv * string) :=
  map (fun n => (env, String.string_of_list_ascii (repeat "q"%char (S n))))
      (seq 0 50).

(** A keyword table with overlapping categories, one of them undeclared. *)
Definition sampleTable : gmap string (list string) :=
  <["bank" := ["banking"]]>
    (<["report" := ["reports"; "banking"]]>
       (<["tax" := ["taxes"; "reports"]]> ∅)).

Definition sampleRAG : LocalRAG.LocalRAG :=
  {| LocalRAG.searchIndex := {| LocalRAG.keywords := Some sampleTable |};
     LocalRAG.isLoaded := true;
     LocalRAG.categories := LocalRAG.categories LocalRAG.constructor |}.



End Samples.

(** * Properties *)

(** ** The rule table *)

Section RuleFallback.

Import JsString SmolLMBrain Reference.

Lemma getQuickBooksGuidance_cases (userMessage : string) :
  In (getQuickBooksGuidance userMessage)
     [ bankingAnswer; invoicingAnswer; expensesAnswer; payrollAnswer;
       reportsAnswer; taxAnswer; inventoryAnswer; troubleshootingAnswer;
       defaultAnswer ].
Proof.
  unfold getQuickBooksGuidance.
  repeat match goal with
         | |- context [if ?b then _ else _] => destruct b
         end;
    cbv [In]; tauto.
Qed.

Lemma getQuickBooksGuidance_nonempty (userMessage : string) :
  getQuickBooksGuidance userMessage <> EmptyString.
Proof.
  pose proof (getQuickBooksGuidance_cases userMessage) as H.
  cbv [In] in H.
  repeat (destruct H as [H | H]; [rewrite <- H; discriminate |]).
  contradiction.
Qed.

Lemma getQuickBooksGuidance_firstMatch (userMessage : string) :
  getQuickBooksGuidance userMessage
  = firstMatch testedGroups defaultAnswer (toLowerCase userMessage).
Proof.
  unfold getQuickBooksGuidance, firstMatch, testedGroups.
  cbn [find existsb fst snd].
  generalize (toLowerCase userMessage) as m; intro m.
  repeat (match goal with
          | |- context [includes m ?k] => destruct (includes m k)
          end; cbn [orb]; try reflexivity).
Qed.

(** C6, as stated, fails: the last group also reacts to the phrase
    [not working], which the listed groups do not contain. *)
Lemma rule_table_not_working_counterexample :
  getQuickBooksGuidance "it is not working"
  <> specifiedRuleFallback "it is not working".
Proof. intros H. vm_compute in H. discriminate H. Qed.

(** The first group tests [bank], not [banking]. *)
Lemma rule_table_bank_keyword :
  getQuickBooksGuidance "my bank" = bankingAnswer
  /\ specifiedRuleFallback "my bank" = defaultAnswer.
Proof. split; vm_compute; reflexivity. Qed.

(** C6 (amended): the rule fallback lowercases the message and scans the
    ordered groups bank/connect/link, invoice/bill/customer,
    expense/receipt/cost, payroll/employee/salary,
    report/profit/loss/financial, tax/1099/deduction,
    inventory/product/stock, error/problem/not working/issue; the first
    group with a keyword occurring in the message gives its fixed answer,
    and the default answer is given when none does.  The four example
    messages get the banking, reports, payroll and default answers, and
    the answer is a function of the message alone. *)
Theorem rule_fallback_first_group_wins :
  (forall userMessage,
      getQuickBooksGuidance userMessage
      = firstMatch testedGroups defaultAnswer (toLowerCase userMessage))
  /\ getQuickBooksGuidance "How do I connect my bank account?" = bankingAnswer
  /\ getQuickBooksGuidance "I need a P&L report" = reportsAnswer
  /\ getQuickBooksGuidance "my payroll setup is broken" = payrollAnswer
  /\ getQuickBooksGuidance "xyzzy unrelated gibberish" = defaultAnswer
  /\ (forall userMessage,
         FallbackBrain.generateResponse userMessage
         = {| success := true;
              message := getQuickBooksGuidance userMessage;
              source := Some "rules" |}).
Proof.
  split; [exact getQuickBooksGuidance_firstMatch |].
  repeat split; vm_compute; reflexivity.
Qed.

End RuleFallback.

(** ** Relevance of an entry without trigger keywords *)

Section Relevance.

Import JsNumber LocalRAG.

(** C5, as stated, fails: with no trigger keyword the quotient is 0/0. *)
Lemma empty_triggers_score_counterexample :
  calculateRelevanceScore ["bank"] [] <> zero.
Proof. cbv [calculateRelevanceScore fold_left List.length]. discriminate. Qed.

(** C5 (amended): for every list of user keywords, the relevance score
    against an empty trigger list is NaN (the quotient 0/0), which, like 0,
    does not pass the relevance threshold of the knowledge search. *)
Theorem empty_triggers_score_is_NaN (userKeywords : list string) :
  calculateRelevanceScore userKeywords [] = NaN
  /\ aboveThreshold (calculateRelevanceScore userKeywords []) = false.
Proof. split; reflexivity. Qed.

End Relevance.

(** ** Loading the model *)

Section Loading.

Import Exn SmolLMBrain Reference Samples.

Lemma initialize_fresh (env : LoadEnv) :
  exists m,
    initialize env fresh = (Return true, m)
    /\ isReady (this m) = true
    /\ isLoading (this m) = false
    /\ responseCache (this m) = []
    /\ (backendFails env -> model (this m) = None).
Proof.
  destruct env as [[[]|] [[]|] [[]|] [idx|]];
    (eexists; split; [reflexivity |]); cbn;
    repeat split; try reflexivity;
    intros [H | [H | H]]; cbn in H; congruence.
Qed.

(** Without a model every request is answered from the rule table, and
    neither the object nor the log of external calls changes. *)
Lemma generateResponse_without_model env userMessage (m : Machine) :
  isReady (this m) = true ->
  responseCache (this m) = [] ->
  model (this m) = None ->
  generateResponse env userMessage m = (Return (rulesAnswer userMessage), m).
Proof.
  destruct m as [self lg]; cbn [this log]; intros Hready Hcache Hmodel.
  cbv [generateResponse tryInference bind getThis getState ret tryCatch this].
  rewrite Hready, Hcache. cbv [negb JsMap.get]. rewrite Hmodel. reflexivity.
Qed.

Lemma serve_without_model requests (m : Machine) :
  isReady (this m) = true ->
  responseCache (this m) = [] ->
  model (this m) = None ->
  serve requests m
  = (Return (map (fun r => rulesAnswer (snd r)) requests), m).
Proof.
  intros Hready Hcache Hmodel.
  induction requests as [| [env userMessage] requests IH]; [reflexivity |].
  cbn [serve map snd]. unfold bind at 1.
  rewrite generateResponse_without_model by assumption.
  unfold bind at 1. rewrite IH. reflexivity.
Qed.

(** C4, as stated, fails: when the runtime cannot be imported the adapter
    still ends ready and says so. *)
Lemma failed_import_reports_ready_counterexample :
  backendFails runtimeMissing
  /\ fst (initialize runtimeMissing fresh) = Return true
  /\ isReady (this (snd (initialize runtimeMissing fresh))) = true
  /\ status (getStatus (this (snd (initialize runtimeMissing fresh)))) = "ready".
Proof. split; [left; reflexivity |]. repeat split. Qed.

(** C4 (amended): if a sub-step of loading the inference backend fails
    (runtime import, model construction or weight download), [initialize]
    on the new object does not throw; the failure is swallowed where it
    occurs, [initialize] still returns true and leaves the adapter ready
    ([getStatus] reports ready) with no model handle, so that every later
    request is answered from the rule table without any external call. *)
Theorem failed_load_degrades_to_rules (env : LoadEnv) :
  backendFails env ->
  exists m,
    initialize env fresh = (Return true, m)
    /\ isReady (this m) = true
    /\ status (getStatus (this m)) = "ready"
    /\ model (this m) = None
    /\ forall requests,
        serve requests m
        = (Return (map (fun r => rulesAnswer (snd r)) requests), m).
Proof.
  intros Hfail.
  destruct (initialize_fresh env) as (m & Hrun & Hready & Hloading & Hcache & Hmodel).
  exists m. specialize (Hmodel Hfail).
  repeat split; try assumption.
  - unfold getStatus. rewrite Hloading, Hready. reflexivity.
  - intros requests. apply serve_without_model; assumption.
Qed.

Lemma failed_load_degrades_to_rules_witness :
  backendFails runtimeMissing
  /\ exists m,
      initialize runtimeMissing fresh = (Return true, m)
      /\ isReady (this m) = true
      /\ status (getStatus (this m)) = "ready"
      /\ model (this m) = None
      /\ forall requests,
          serve requests m
          = (Return (map (fun r => rulesAnswer (snd r)) requests), m).
Proof.
  split; [left; reflexivity |].
  apply (failed_load_degrades_to_rules runtimeMissing).
  left; reflexivity.
Defined.

End Loading.

(** ** One request through the pipeline *)

Section Pipeline.

Import Exn SmolLMBrain Reference Samples.

Ltac run :=
  cbv [generateResponse tryInference bind getThis getState ret tryCatch
       call record lift modify update this log].

Lemma generateResponse_not_ready env userMessage (m : Machine) :
  isReady (this m) = false ->
  generateResponse env userMessage m
  = (Return {| success := false; message := stillLoading; source := None |}, m).
Proof.
  destruct m as [self lg]; cbn [this]; intros Hready.
  run. rewrite Hready. reflexivity.
Qed.

Lemma generateResponse_hit env userMessage (m : Machine) text :
  isReady (this m) = true ->
  cacheHit (this m) (normalizeMessage userMessage) text ->
  generateResponse env userMessage m = (Return (cacheAnswer text), m).
Proof.
  destruct m as [self lg]; cbn [this]; intros Hready [Hget Hne].
  run. rewrite Hready, Hget. cbv [negb].
  destruct text as [| c rest]; [congruence | reflexivity].
Qed.

(** Every request to a ready pipeline ends in one of three ways. *)
Lemma generateResponse_cases env userMessage (m : Machine) :
  isReady (this m) = true ->
  (exists text,
      cacheHit (this m) (normalizeMessage userMessage) text
      /\ generateResponse env userMessage m = (Return (cacheAnswer text), m))
  \/ (exists lg,
         generateResponse env userMessage m
         = (Return (rulesAnswer userMessage), {| this := this m; log := lg |}))
  \/ (exists text lg,
         15 < String.length text
         /\ (forall t, ~ cacheHit (this m) (normalizeMessage userMessage) t)
         /\ generateResponse env userMessage m
            = (Return (modelAnswer text),
               {| this := cacheResponse (normalizeMessage userMessage) text (this m);
                  log := lg |})).
Proof.
  intros Hready.
  destruct (JsMap.get (responseCache (this m)) (normalizeMessage userMessage))
    as [[| c rest] |] eqn:Hget.
  2: { left. exists (String c rest). split; [split; [assumption | discriminate] |].
       apply generateResponse_hit; [assumption | split; [assumption | discriminate]]. }
  all: right.
  all: assert (Hmiss : forall t, ~ cacheHit (this m) (normalizeMessage userMessage) t)
    by (intros t [Ht Hne]; congruence).
  all: destruct m as [self lg]; cbn [this] in *.
  all: run; rewrite Hready, Hget; cbv [negb].
  all: destruct (model self) as [[] |]; cbv [isSome andb];
    [| left; eexists; reflexivity].
  all: destruct (llamaCpp self) as [[] |]; [| left; eexists; reflexivity].
  all: destruct (ragReady self);
    [destruct (retrieve env userMessage) as [ragContext |];
     [| left; eexists; reflexivity] |].
  all: match goal with
       | |- context [createCompletion ?e ?p] =>
           destruct (createCompletion e p) as [response |];
           [| left; eexists; reflexivity]
       end.
  all: destruct (15 <? String.length (cleanResponse response)) eqn:Hlen;
    cbv [andb]; [| left; eexists; reflexivity].
  all: destruct (isGenericResponse (cleanResponse response));
    cbv [negb]; [left; eexists; reflexivity |].
  all: right; exists (cleanResponse response); eexists;
    split; [apply Nat.ltb_lt; assumption | split; [assumption | reflexivity]].
Qed.

(** C1: for every non-empty user message, once the pipeline is ready,
    [generateResponse] returns normally (it does not throw) a response
    with a non-empty message, coming from the cache, from the model or
    from the rule table. *)
Theorem generateResponse_total env userMessage (m : Machine) :
  isReady (this m) = true ->
  userMessage <> EmptyString ->
  exists response m',
    generateResponse env userMessage m = (Return response, m')
    /\ message response <> EmptyString
    /\ In (source response)
          [Some "cache"; Some "smollm2-local"; Some "enhanced-rules"].
Proof.
  intros Hready _.
  destruct (generateResponse_cases env userMessage m Hready)
    as [(text & [_ Hne] & Hrun) | [(lg & Hrun) | (text & lg & Hlen & _ & Hrun)]];
    rewrite Hrun; eexists; eexists; (split; [reflexivity |]);
    cbn [message source cacheAnswer rulesAnswer modelAnswer In]; split; auto.
  - apply getQuickBooksGuidance_nonempty.
  - destruct text; [inversion Hlen | discriminate].
Qed.

Lemma generateResponse_total_witness :
  isReady (this loaded) = true
  /\ "How do I connect my bank account?" <> EmptyString
  /\ exists response m',
      generateResponse (answering reconnect)
                       "How do I connect my bank account?" loaded
      = (Return response, m')
      /\ message response <> EmptyString
      /\ In (source response)
            [Some "cache"; Some "smollm2-local"; Some "enhanced-rules"].
Proof.
  split; [reflexivity |]. split; [discriminate |].
  apply (generateResponse_total
           (answering reconnect)
           "How do I connect my bank account?" loaded);
    [reflexivity | discriminate].
Defined.

(** C7: a candidate whose cleaned text has at most 15 characters is
    rejected whatever it says: the request is answered from the rule
    table and nothing is cached. *)
Theorem short_candidate_rejected env userMessage (m : Machine)
        ragContext response :
  isReady (this m) = true ->
  (forall t, ~ cacheHit (this m) (normalizeMessage userMessage) t) ->
  model (this m) = Some tt ->
  llamaCpp (this m) = Some tt ->
  (if ragReady (this m) then retrieve env userMessage else Return EmptyString)
  = Return ragContext ->
  createCompletion env (buildPrompt ragContext userMessage) = Return response ->
  String.length (cleanResponse response) <= 15 ->
  exists lg,
    generateResponse env userMessage m
    = (Return (rulesAnswer userMessage), {| this := this m; log := lg |}).
Proof.
  destruct m as [self lg]; cbn [this].
  intros Hready Hmiss Hmodel Hruntime Hrag Hcompletion Hshort.
  assert (Hlen : (15 <? String.length (cleanResponse response)) = false)
    by (apply Nat.ltb_ge; assumption).
  run. rewrite Hready. cbv [negb].
  destruct (JsMap.get (responseCache self) (normalizeMessage userMessage))
    as [[| c rest] |] eqn:Hget.
  2: { exfalso. apply (Hmiss (String c rest)). split; [assumption | discriminate]. }
  all: rewrite Hmodel, Hruntime; cbv [isSome andb].
  all: destruct (ragReady self);
    [rewrite Hrag | injection Hrag as <-];
    rewrite Hcompletion, Hlen; cbv [andb]; eexists; reflexivity.
Qed.

Lemma short_candidate_rejected_witness :
  exists lg,
    generateResponse (answering "Sure thing.") "How do I run payroll?" loaded
    = (Return (rulesAnswer "How do I run payroll?"),
       {| this := this loaded; log := lg |}).
Proof.
  apply (short_candidate_rejected (answering "Sure thing.")
           "How do I run payroll?" loaded EmptyString "Sure thing.").
  - reflexivity.
  - intros t [Hget _]. discriminate Hget.
  - reflexivity.
  - reflexivity.
  - reflexivity.
  - reflexivity.
  - vm_compute. repeat constructor.
Defined.

End Pipeline.

(** ** The response cache *)

Section MapFacts.

Context {V : Type}.
Implicit Types (m : JsMap.t V) (k : string) (v : V).

Lemma get_None_keys m k : JsMap.get m k = None <-> k ∉ JsMap.keys m.
Proof.
  unfold JsMap.keys.
  induction m as [| [k' v'] m IH]; cbn [JsMap.get map fst].
  - split; [intros _; apply not_elem_of_nil | reflexivity].
  - rewrite not_elem_of_cons.
    destruct (String.eqb_spec k' k) as [-> | Hne].
    + split; [discriminate | intros [H _]; congruence].
    + rewrite IH. split; [intros H; split; [congruence | assumption] | tauto].
Qed.

Lemma set_absent m k v : JsMap.get m k = None -> JsMap.set m k v = m ++ [(k, v)].
Proof.
  induction m as [| [k' v'] m IH]; cbn; [reflexivity |].
  destruct (String.eqb k' k); [discriminate |].
  intros H. rewrite IH by assumption. reflexivity.
Qed.

Lemma get_set_same m k v : JsMap.get (JsMap.set m k v) k = Some v.
Proof.
  induction m as [| [k' v'] m IH]; cbn.
  - rewrite String.eqb_refl. reflexivity.
  - destruct (String.eqb k' k) eqn:E; cbn.
    + rewrite String.eqb_refl. reflexivity.
    + rewrite E. exact IH.
Qed.

Lemma get_set_other m k k' v :
  k <> k' -> JsMap.get (JsMap.set m k v) k' = JsMap.get m k'.
Proof.
  intros Hne. induction m as [| [k0 v0] m IH]; cbn.
  - destruct (String.eqb_spec k k'); [contradiction | reflexivity].
  - destruct (String.eqb_spec k0 k) as [-> | Hk]; cbn.
    + destruct (String.eqb_spec k k'); [contradiction | reflexivity].
    + destruct (String.eqb k0 k'); [reflexivity | exact IH].
Qed.

Lemma size_set_le m k v : JsMap.size (JsMap.set m k v) <= S (JsMap.size m).
Proof.
  unfold JsMap.size. induction m as [| [k' v'] m IH]; cbn; [lia |].
  destruct (String.eqb k' k); cbn; lia.
Qed.

Lemma delete_firstKey m k : JsMap.firstKey m = Some k -> JsMap.delete m k = tl m.
Proof.
  destruct m as [| [k' v'] m]; cbn; [discriminate |].
  intros [= ->]. rewrite String.eqb_refl. reflexivity.
Qed.

Lemma get_tl_absent m k : JsMap.get m k = None -> JsMap.get (tl m) k = None.
Proof.
  destruct m as [| [k' v'] m]; cbn; [reflexivity |].
  destruct (String.eqb k' k); [discriminate | trivial].
Qed.

Lemma tl_drop {A : Type} (l : list A) n : tl (drop n l) = drop (S n) l.
Proof.
  revert n. induction l as [| x l IH]; intros [| n]; cbn; try reflexivity.
  apply IH.
Qed.

End MapFacts.

Section Cache.

Import SmolLMBrain Reference Samples.

Lemma cacheResponse_maxCacheSize key response self :
  maxCacheSize (cacheResponse key response self) = maxCacheSize self.
Proof. reflexivity. Qed.

Lemma cacheAll_maxCacheSize entries self :
  maxCacheSize (cacheAll entries self) = maxCacheSize self.
Proof.
  revert self. induction entries as [| e entries IH]; intros self; [reflexivity |].
  cbn. rewrite IH. reflexivity.
Qed.

Lemma cacheAll_app entries e self :
  cacheAll (entries ++ [e]) self
  = cacheResponse (fst e) (snd e) (cacheAll entries self).
Proof. unfold cacheAll. rewrite fold_left_app. reflexivity. Qed.

(** At capacity the oldest entry goes, and only that one. *)
Lemma cacheResponse_at_capacity key response self :
  maxCacheSize self <= JsMap.size (responseCache self) ->
  responseCache (cacheResponse key response self)
  = JsMap.set (tl (responseCache self)) key response.
Proof.
  intros Hfull. unfold cacheResponse. cbn [responseCache setResponseCache].
  apply Nat.leb_le in Hfull. rewrite Hfull.
  destruct (responseCache self) as [| [k v] c]; [reflexivity |].
  cbn [JsMap.firstKey]. rewrite (delete_firstKey _ k) by reflexivity.
  reflexivity.
Qed.

Lemma cacheResponse_below_capacity key response self :
  JsMap.size (responseCache self) < maxCacheSize self ->
  responseCache (cacheResponse key response self)
  = JsMap.set (responseCache self) key response.
Proof.
  intros Hroom. unfold cacheResponse. cbn [responseCache setResponseCache].
  apply Nat.leb_gt in Hroom. rewrite Hroom. reflexivity.
Qed.

Lemma cacheResponse_size key response self :
  0 < maxCacheSize self ->
  JsMap.size (responseCache self) <= maxCacheSize self ->
  JsMap.size (responseCache (cacheResponse key response self))
  <= maxCacheSize self.
Proof.
  intros Hpos Hinv.
  destruct (Nat.le_gt_cases (maxCacheSize self) (JsMap.size (responseCache self)))
    as [Hfull | Hroom].
  - rewrite cacheResponse_at_capacity by assumption.
    pose proof (size_set_le (tl (responseCache self)) key response) as Hset.
    assert (JsMap.size (tl (responseCache self))
            = JsMap.size (responseCache self) - 1)
      by (unfold JsMap.size; destruct (responseCache self); cbn; lia).
    lia.
  - rewrite cacheResponse_below_capacity by assumption.
    pose proof (size_set_le (responseCache self) key response). lia.
Qed.

Lemma cacheAll_size entries self :
  0 < maxCacheSize self ->
  JsMap.size (responseCache self) <= maxCacheSize self ->
  JsMap.size (responseCache (cacheAll entries self)) <= maxCacheSize self.
Proof.
  intros Hpos Hinv.
  induction entries as [| e entries IH] using rev_ind; [assumption |].
  rewrite cacheAll_app.
  rewrite <- (cacheAll_maxCacheSize entries self) in *.
  apply cacheResponse_size; assumption.
Qed.

(** With pairwise distinct keys the cache holds the newest entries, in the
    order they came. *)
Lemma cacheAll_distinct entries self :
  0 < maxCacheSize self ->
  responseCache self = [] ->
  NoDup (map fst entries) ->
  responseCache (cacheAll entries self)
  = drop (List.length entries - maxCacheSize self) entries.
Proof.
  intros Hpos Hempty.
  induction entries as [| e entries IH] using rev_ind; intros Hnodup.
  - cbn. assumption.
  - rewrite map_app in Hnodup. cbn [map] in Hnodup.
    apply NoDup_app in Hnodup as (Hnodup & Hfresh & _).
    specialize (IH Hnodup).
    rewrite cacheAll_app, length_app. cbn [List.length].
    assert (Habsent : forall n, JsMap.get (drop n entries) (fst e) = None).
    { intros n. apply get_None_keys. intros Hin.
      apply (Hfresh (fst e)); [| apply list_elem_of_here].
      unfold JsMap.keys in Hin.
      apply list_elem_of_fmap in Hin as (x & Hx & Hin).
      apply list_elem_of_fmap. exists x. split; [assumption |].
      eapply (subseteq_drop n entries). exact Hin. }
    destruct (Nat.le_gt_cases (maxCacheSize self) (List.length entries))
      as [Hfull | Hroom].
    + rewrite cacheResponse_at_capacity.
      2: { rewrite cacheAll_maxCacheSize, IH. unfold JsMap.size.
           rewrite length_drop. lia. }
      rewrite IH.
      rewrite tl_drop.
      rewrite set_absent by apply Habsent.
      replace (List.length entries + 1 - maxCacheSize self)
        with (S (List.length entries - maxCacheSize self)) by lia.
      rewrite drop_app_le by lia. destruct e; reflexivity.
    + rewrite cacheResponse_below_capacity.
      2: { rewrite cacheAll_maxCacheSize, IH. unfold JsMap.size.
           rewrite length_drop. lia. }
      rewrite IH.
      replace (List.length entries - maxCacheSize self) with 0 by lia.
      replace (List.length entries + 1 - maxCacheSize self) with 0 by lia.
      cbn [drop]. rewrite set_absent by apply (Habsent 0).
      destruct e; reflexivity.
Qed.

(** C2: the response cache never holds more than [maxCacheSize] = 50
    entries, whatever is inserted through [cacheResponse]; an insertion
    into a full cache evicts exactly the oldest entry; after 51 insertions
    under distinct keys the cache holds exactly 50 entries and the first
    key is gone. *)
Theorem cache_bound (entries : list (string * string)) (key response : string) :
  let self := cacheAll entries constructor in
  JsMap.size (responseCache self) <= maxCacheSize self
  /\ maxCacheSize self = 50
  /\ (JsMap.size (responseCache self) = maxCacheSize self ->
      responseCache (cacheResponse key response self)
      = JsMap.set (tl (responseCache self)) key response)
  /\ (NoDup (map fst entries) ->
      List.length entries = maxCacheSize self + 1 ->
      JsMap.size (responseCache self) = maxCacheSize self
      /\ forall first, head entries = Some first ->
                       JsMap.get (responseCache self) (fst first) = None).
Proof.
  intros self. subst self.
  rewrite !cacheAll_maxCacheSize. cbn [maxCacheSize constructor].
  split; [| split; [reflexivity | split]].
  - apply (cacheAll_size entries constructor); cbn; lia.
  - intros Hfull. apply cacheResponse_at_capacity.
    rewrite cacheAll_maxCacheSize. cbn [maxCacheSize constructor]. lia.
  - intros Hnodup Hlen.
    rewrite (cacheAll_distinct entries constructor) by (cbn; (lia || done)).
    cbn [maxCacheSize constructor]. rewrite Hlen.
    replace (50 + 1 - 50) with 1 by lia.
    split.
    + unfold JsMap.size. rewrite length_drop. lia.
    + intros first Hhead.
      destruct entries as [| e rest]; [discriminate |].
      injection Hhead as ->. cbn [drop].
      apply get_None_keys. cbn [map] in Hnodup.
      apply NoDup_cons in Hnodup as [Hfresh _]. exact Hfresh.
Qed.

Lemma cache_bound_witness :
  NoDup (map fst sampleEntries)
  /\ List.length sampleEntries = 50 + 1
  /\ JsMap.size (responseCache (cacheAll sampleEntries constructor)) = 50
  /\ JsMap.get (responseCache (cacheAll sampleEntries constructor)) "q" = None.
Proof.
  assert (Hnodup : NoDup (map fst sampleEntries))
    by (apply (bool_decide_unpack _); vm_compute; exact I).
  split; [exact Hnodup |]. split; [reflexivity |].
  destruct (cache_bound sampleEntries "q" "text") as (_ & _ & _ & H).
  destruct (H Hnodup eq_refl) as [Hsize Hgone].
  split; [exact Hsize |].
  apply (Hgone ("q", reconnect)).
  reflexivity.
Defined.

End Cache.

(** ** Repeated questions *)

Section Determinism.

Import Exn SmolLMBrain Reference Samples.

Lemma holds_get cache key text n :
  holds cache key text n -> JsMap.get cache key = Some text.
Proof.
  intros (older & newer & -> & Hfresh & _).
  induction older as [| [k v] older IH]; cbn.
  - rewrite String.eqb_refl. reflexivity.
  - cbn in Hfresh. apply not_elem_of_cons in Hfresh as [Hne Hfresh].
    destruct (String.eqb_spec k key); [congruence | auto].
Qed.

Lemma miss_absent self key :
  cacheWF self ->
  (forall t, ~ cacheHit self key t) ->
  JsMap.get (responseCache self) key = None.
Proof.
  intros (_ & Hne & _) Hmiss.
  destruct (JsMap.get (responseCache self) key) as [t |] eqn:Hget; [| reflexivity].
  exfalso. apply (Hmiss t). split; [assumption |].
  clear Hmiss. induction Hne as [| [k v] c Hv _ IH]; cbn in Hget; [discriminate |].
  destruct (String.eqb k key); [injection Hget as <-; exact Hv | auto].
Qed.

Lemma keys_app {V : Type} (m1 m2 : JsMap.t V) :
  JsMap.keys (m1 ++ m2) = JsMap.keys m1 ++ JsMap.keys m2.
Proof. unfold JsMap.keys. apply map_app. Qed.

Lemma cacheResponse_fresh key text self :
  JsMap.get (responseCache self) key = None ->
  responseCache (cacheResponse key text self)
  = (if maxCacheSize self <=? JsMap.size (responseCache self)
     then tl (responseCache self) else responseCache self) ++ [(key, text)].
Proof.
  intros Habsent.
  pose proof (get_tl_absent _ _ Habsent) as Htl.
  destruct (maxCacheSize self <=? JsMap.size (responseCache self)) eqn:E.
  - apply Nat.leb_le in E. rewrite cacheResponse_at_capacity by assumption.
    apply set_absent; assumption.
  - apply Nat.leb_gt in E. rewrite cacheResponse_below_capacity by assumption.
    apply set_absent; assumption.
Qed.

Lemma cacheResponse_WF key text self :
  cacheWF self ->
  JsMap.get (responseCache self) key = None ->
  text <> EmptyString ->
  cacheWF (cacheResponse key text self).
Proof.
  intros (Hnodup & Hne & Hmax) Habsent Htext.
  unfold cacheWF. rewrite cacheResponse_fresh by assumption.
  rewrite cacheResponse_maxCacheSize.
  assert (Hsub : forall c : JsMap.t string,
             c = responseCache self \/ c = tl (responseCache self) ->
             NoDup (JsMap.keys (c ++ [(key, text)]))
             /\ Forall (fun e => snd e <> EmptyString) (c ++ [(key, text)])).
  { intros c Hc.
    assert (Hc' : NoDup (JsMap.keys c)
                  /\ Forall (fun e => snd e <> EmptyString) c
                  /\ JsMap.get c key = None).
    { destruct Hc as [-> | ->]; [auto |].
      destruct (responseCache self) as [| [k v] c0]; [auto |].
      cbn in *. apply NoDup_cons in Hnodup as [_ Hnodup].
      apply Forall_cons in Hne as [_ Hne].
      destruct (String.eqb k key); [discriminate | auto]. }
    destruct Hc' as (Hn & Hf & Hg). split.
    - rewrite keys_app. apply NoDup_app. split; [assumption |]. split.
      + intros x Hx Hin. cbn in Hin. apply list_elem_of_singleton in Hin as ->.
        apply get_None_keys in Hg. contradiction.
      + apply NoDup_singleton.
    - apply Forall_app. split; [assumption |].
      apply Forall_cons. split; [exact Htext | apply Forall_nil_2]. }
  destruct (maxCacheSize self <=? JsMap.size (responseCache self)).
  - destruct (Hsub (tl (responseCache self))) as [H1 H2]; auto.
  - destruct (Hsub (responseCache self)) as [H1 H2]; auto.
Qed.

(** [initialize] touches neither the cache nor its capacity. *)
Lemma initialize_cache env (m : Machine) :
  responseCache (this (snd (initialize env m))) = responseCache (this m)
  /\ maxCacheSize (this (snd (initialize env m))) = maxCacheSize (this m).
Proof.
  destruct m as [[loading ready lc wc md c mx [idx0 loaded cats] rr] lg].
  destruct loading, ready; try (split; reflexivity).
  destruct env as [[[] |] [[] |] [[] |] [idx |]], loaded; split; reflexivity.
Qed.

Lemma generateResponse_WF env userMessage (m : Machine) :
  cacheWF (this m) -> cacheWF (this (snd (generateResponse env userMessage m))).
Proof.
  intros Hwf.
  destruct (isReady (this m)) eqn:Hready.
  - destruct (generateResponse_cases env userMessage m Hready)
      as [(text & _ & Hrun) | [(lg & Hrun) | (text & lg & Hlen & Hmiss & Hrun)]];
      rewrite Hrun; cbn [snd this]; try assumption.
    apply cacheResponse_WF; [assumption | apply miss_absent; assumption |].
    destruct text; [inversion Hlen | discriminate].
  - rewrite generateResponse_not_ready by assumption. assumption.
Qed.

Lemma reachable_WF (m : Machine) : reachable m -> cacheWF (this m).
Proof.
  induction 1 as [| env m _ IH | env userMessage m _ IH].
  - repeat split; [apply NoDup_nil_2 | apply Forall_nil_2].
  - destruct (initialize_cache env m) as [Hc Hm].
    unfold cacheWF. rewrite Hc, Hm. exact IH.
  - apply generateResponse_WF; assumption.
Qed.

Lemma generateResponse_returns env userMessage (m : Machine) :
  exists response,
    generateResponse env userMessage m
    = (Return response, snd (generateResponse env userMessage m)).
Proof.
  destruct (isReady (this m)) eqn:Hready.
  - destruct (generateResponse_cases env userMessage m Hready)
      as [(text & _ & Hrun) | [(lg & Hrun) | (text & lg & _ & _ & Hrun)]];
      rewrite Hrun; eexists; reflexivity.
  - rewrite generateResponse_not_ready by assumption. eexists; reflexivity.
Qed.

Lemma generateResponse_ready env userMessage (m : Machine) :
  isReady (this m) = true ->
  isReady (this (snd (generateResponse env userMessage m))) = true.
Proof.
  intros Hready.
  destruct (generateResponse_cases env userMessage m Hready)
    as [(text & _ & Hrun) | [(lg & Hrun) | (text & lg & _ & _ & Hrun)]];
    rewrite Hrun; assumption.
Qed.

Lemma holds_weaken cache key text n n' :
  n <= n' -> holds cache key text n -> holds cache key text n'.
Proof.
  intros Hle (older & newer & Hc & Hfresh & Hlen).
  exists older, newer. repeat split; [assumption | assumption | lia].
Qed.

(** One more request pushes an entry at most one place towards eviction,
    and cannot evict it while fewer than 49 entries are newer. *)
Lemma holds_step env userMessage (m : Machine) key text n :
  isReady (this m) = true ->
  cacheWF (this m) ->
  text <> EmptyString ->
  holds (responseCache (this m)) key text n ->
  n + 1 < 50 ->
  holds (responseCache (this (snd (generateResponse env userMessage m))))
        key text (S n).
Proof.
  intros Hready Hwf Htext Hholds Hn.
  destruct (generateResponse_cases env userMessage m Hready)
    as [(t & _ & Hrun) | [(lg & Hrun) | (t & lg & _ & Hmiss & Hrun)]];
    rewrite Hrun; cbn [snd this];
    try (apply (holds_weaken _ _ _ n); [lia | assumption]).
  pose proof (miss_absent _ _ Hwf Hmiss) as Habsent.
  rewrite cacheResponse_fresh by assumption.
  destruct Hwf as (_ & _ & Hmax). rewrite Hmax.
  destruct Hholds as (older & newer & Hc & Hfresh & Hlen).
  rewrite Hc. destruct (50 <=? JsMap.size (older ++ (key, text) :: newer)) eqn:E.
  - apply Nat.leb_le in E. unfold JsMap.size in E.
    rewrite length_app in E. cbn [List.length] in E.
    destruct older as [| o older']; [cbn in E; lia |].
    cbn [tl app]. exists older', (newer ++ [(normalizeMessage userMessage, t)]).
    split; [rewrite <- app_assoc; reflexivity |]. split.
    + cbn in Hfresh. apply not_elem_of_cons in Hfresh as [_ Hfresh]. exact Hfresh.
    + rewrite length_app. cbn. lia.
  - exists older, (newer ++ [(normalizeMessage userMessage, t)]).
    split; [rewrite <- app_assoc; reflexivity |]. split; [assumption |].
    rewrite length_app. cbn. lia.
Qed.

Lemma serve_holds between (m : Machine) key text n :
  isReady (this m) = true ->
  cacheWF (this m) ->
  text <> EmptyString ->
  holds (responseCache (this m)) key text n ->
  n + List.length between < 50 ->
  exists answers m',
    serve between m = (Return answers, m')
    /\ isReady (this m') = true
    /\ holds (responseCache (this m')) key text (n + List.length between).
Proof.
  revert m n.
  induction between as [| [env userMessage] between IH];
    intros m n Hready Hwf Htext Hholds Hn; cbn [List.length] in *.
  - exists [], m. rewrite Nat.add_0_r. auto.
  - destruct (generateResponse_returns env userMessage m) as (r & Hrun).
    destruct (IH (snd (generateResponse env userMessage m)) (S n))
      as (answers & m' & Hserve & Hready' & Hholds').
    + apply generateResponse_ready; assumption.
    + apply generateResponse_WF; assumption.
    + assumption.
    + apply holds_step; [assumption .. | lia].
    + lia.
    + exists (r :: answers), m'.
      cbn [serve]. unfold bind at 1. rewrite Hrun.
      unfold bind at 1. rewrite Hserve.
      replace (n + S (List.length between)) with (S n + List.length between) by lia.
      auto.
Qed.

(** C3, as stated, fails: after fifty other cached answers the first one
    has been evicted, and the repeated question goes to the model again. *)
Lemma evicted_answer_counterexample :
  let env := answering reconnect in
  let m1 := snd (generateResponse env "hello" loaded) in
  let m2 := snd (serve (fiftyOthers env) m1) in
  normalizeMessage "hello" = normalizeMessage "Hello!"
  /\ fst (generateResponse env "hello" loaded) = Return (modelAnswer reconnect)
  /\ fst (generateResponse env "Hello!" m2) = Return (modelAnswer reconnect)
  /\ log (snd (generateResponse env "Hello!" m2))
     = log m2 ++ [Retrieve "Hello!";
                  CreateCompletion (buildPrompt EmptyString "Hello!")].
Proof. vm_compute. repeat split. Qed.

(** C3 (amended): for two calls whose messages normalize to the same cache
    key, if the first produced and cached a model-sourced answer and fewer
    than [maxCacheSize] = 50 other requests were served in between (so that
    the entry cannot have been evicted), the second call returns exactly
    that text with source [cache], and makes no external call: neither the
    object nor the log changes. *)
Theorem cache_determinism env1 env2 userMessage1 userMessage2
        (between : list (ChatEnv * string)) (m m1 : Machine) response1 :
  reachable m ->
  normalizeMessage userMessage1 = normalizeMessage userMessage2 ->
  generateResponse env1 userMessage1 m = (Return response1, m1) ->
  source response1 = Some "smollm2-local" ->
  List.length between < 50 ->
  exists answers m2,
    serve between m1 = (Return answers, m2)
    /\ generateResponse env2 userMessage2 m2
       = (Return (cacheAnswer (message response1)), m2).
Proof.
  intros Hreach Hkey Hrun Hsource Hlen.
  pose proof (reachable_WF m Hreach) as Hwf.
  destruct (isReady (this m)) eqn:Hready.
  2: { rewrite generateResponse_not_ready in Hrun by assumption.
       injection Hrun as <- <-. discriminate Hsource. }
  destruct (generateResponse_cases env1 userMessage1 m Hready)
    as [(t & _ & Hrun') | [(lg & Hrun') | (t & lg & Ht & Hmiss & Hrun')]];
    rewrite Hrun' in Hrun; injection Hrun as <- <-;
    try discriminate Hsource.
  cbn [message modelAnswer].
  assert (Htext : t <> EmptyString) by (destruct t; [inversion Ht | discriminate]).
  pose proof (miss_absent _ _ Hwf Hmiss) as Habsent.
  destruct (serve_holds between
              {| this := cacheResponse (normalizeMessage userMessage1) t (this m);
                 log := lg |}
              (normalizeMessage userMessage1) t 0)
    as (answers & m2 & Hserve & Hready2 & Hholds).
  - exact Hready.
  - apply cacheResponse_WF; assumption.
  - exact Htext.
  - cbn [this]. rewrite cacheResponse_fresh by assumption.
    eexists _, []. split; [reflexivity |]. split; [| cbn; lia].
    apply get_None_keys.
    destruct (maxCacheSize (this m) <=? JsMap.size (responseCache (this m)));
      [apply get_tl_absent |]; assumption.
  - cbn. lia.
  - exists answers, m2. split; [assumption |].
    apply generateResponse_hit; [assumption |].
    split; [| assumption]. rewrite <- Hkey.
    eapply holds_get. exact Hholds.
Qed.

Lemma cache_determinism_witness :
  exists answers m2,
    serve [(answering reconnect, "How do I run payroll?")]
          (snd (generateResponse (answering reconnect) "hello" loaded))
    = (Return answers, m2)
    /\ generateResponse (answering "Sure thing.") "Hello!" m2
       = (Return (cacheAnswer reconnect), m2).
Proof.
  apply (cache_determinism (answering reconnect) (answering "Sure thing.")
           "hello" "Hello!" [(answering reconnect, "How do I run payroll?")]
           loaded (snd (generateResponse (answering reconnect) "hello" loaded))
           (modelAnswer reconnect)).
  - apply (reachable_initialize everythingLoads fresh). apply reachable_new.
  - reflexivity.
  - vm_compute. reflexivity.
  - reflexivity.
  - cbn. lia.
Defined.

End Determinism.

(** ** Ranking the categories *)

Section Numbers.

Import JsNumber.

Lemma Qc_of_Z_compare (a b : Z) : (Qc_of_Z a ?= Qc_of_Z b)%Qc = (a ?= b)%Z.
Proof.
  unfold Qccompare, Qc_of_Z, Qcompare. cbn.
  rewrite !Z.mul_1_r. reflexivity.
Qed.

Lemma plusOne_ofNat (n : nat) : plusOne (Some (ofNat n)) = ofNat (S n).
Proof.
  unfold plusOne, one, ofNat, add. f_equal.
  rewrite <- Z2Qc_inj_add. f_equal. lia.
Qed.

Lemma gt_ofNat_zero (n : nat) : gt (ofNat n) zero = (0 <? n).
Proof.
  unfold gt, zero, ofNat. rewrite Qc_of_Z_compare.
  destruct n as [| n]; [reflexivity |]. reflexivity.
Qed.

Lemma gt_sub_ofNat (a b : nat) : gt (sub (ofNat b) (ofNat a)) zero = (a <? b).
Proof.
  unfold gt, zero, sub, neg, add, ofNat.
  replace (Qc_of_Z (Z.of_nat b) + - Qc_of_Z (Z.of_nat a))%Qc
    with (Qc_of_Z (Z.of_nat b - Z.of_nat a))
    by (rewrite Z2Qc_inj_sub; reflexivity).
  rewrite Qc_of_Z_compare.
  destruct (Nat.ltb_spec a b) as [H | H].
  - replace (Z.of_nat b - Z.of_nat a ?= Z.of_nat 0)%Z with Gt; [reflexivity |].
    symmetry. apply Z.compare_gt_iff. lia.
  - destruct (Z.of_nat b - Z.of_nat a ?= Z.of_nat 0)%Z eqn:E; try reflexivity.
    apply Z.compare_gt_iff in E. lia.
Qed.

End Numbers.

Section StableSort.

Import JsNumber JsArray Reference.

Context {A : Type} (cmp : A -> A -> Number) (key : A -> nat).
Hypothesis cmp_key : forall x y, gt (cmp x y) zero = (key x <? key y).

(** Earlier in the input. *)
Variable before : A -> A -> Prop.

Lemma sortedBy_key x y : sortedBy key before x y -> key y <= key x.
Proof. intros [H | [H _]]; lia. Qed.

Lemma insertSorted_perm x l : insertSorted cmp x l ≡ₚ x :: l.
Proof.
  induction l as [| y l IH]; cbn; [reflexivity |].
  destruct (gt (cmp x y) zero); [| reflexivity].
  rewrite IH. apply Permutation_swap.
Qed.

Lemma sort_cons x l : sort cmp (x :: l) = insertSorted cmp x (sort cmp l).
Proof. reflexivity. Qed.

Lemma sort_perm l : sort cmp l ≡ₚ l.
Proof.
  induction l as [| x l IH]; [reflexivity |].
  rewrite sort_cons, insertSorted_perm, IH. reflexivity.
Qed.

Lemma insertSorted_sorted x l :
  StronglySorted (sortedBy key before) l ->
  Forall (before x) l ->
  StronglySorted (sortedBy key before) (insertSorted cmp x l).
Proof.
  induction 1 as [| y l Hsorted IH Hy]; intros Hbefore; cbn.
  - repeat constructor.
  - apply Forall_cons in Hbefore as [Hxy Hbefore].
    rewrite cmp_key. destruct (Nat.ltb_spec (key x) (key y)) as [Hlt | Hge].
    + constructor; [apply IH; assumption |].
      rewrite insertSorted_perm. constructor; [left; assumption | assumption].
    + assert (Hall : Forall (sortedBy key before x) (y :: l)).
      { apply List.Forall_forall. intros z Hz.
        assert (Hz' : before x z /\ key z <= key y).
        { destruct Hz as [<- | Hz].
          - split; [assumption | lia].
          - split.
            + eapply List.Forall_forall in Hbefore; eassumption.
            + apply sortedBy_key.
              eapply List.Forall_forall in Hy; eassumption. }
        destruct Hz' as [Hb Hk]. unfold sortedBy.
        destruct (Nat.eq_dec (key x) (key z)); [right; auto | left; lia]. }
      constructor; [constructor; assumption | assumption].
Qed.

Lemma sort_sorted l :
  StronglySorted before l -> StronglySorted (sortedBy key before) (sort cmp l).
Proof.
  induction 1 as [| x l _ IH Hx]; [constructor |].
  rewrite sort_cons. apply insertSorted_sorted; [assumption |].
  rewrite sort_perm. assumption.
Qed.

End StableSort.

Lemma sort_map {A B : Type} (g : A -> B)
    (cmp : B -> B -> JsNumber.Number) (l : list A) :
JsArray.sort cmp (map g l)
= map g (JsArray.sort (fun x y => cmp (g x) (g y)) l).
Proof.
induction l as [| x l IH]; [reflexivity |].
cbn [map]. rewrite !sort_cons, IH.
generalize (JsArray.sort (fun x y => cmp (g x) (g y)) l) as s.
induction s as [| y s IHs]; cbn; [reflexivity |].
destruct (JsNumber.gt (cmp (g x) (g y)) JsNumber.zero); cbn; [| reflexivity].
rewrite IHs. reflexivity.
Qed.

Section MoreMapFacts.

Context {V : Type}.
Implicit Types (m : JsMap.t V) (k : string) (v : V).

Lemma get_app m1 m2 k :
  JsMap.get (m1 ++ m2) k
  = match JsMap.get m1 k with
    | Some v => Some v
    | None => JsMap.get m2 k
    end.
Proof.
  induction m1 as [| [k' v'] m1 IH]; cbn; [reflexivity |].
  destruct (String.eqb k' k); [reflexivity | exact IH].
Qed.

Lemma set_app_present m1 m2 k v :
  JsMap.get m1 k <> None -> JsMap.set (m1 ++ m2) k v = JsMap.set m1 k v ++ m2.
Proof.
  induction m1 as [| [k' v'] m1 IH]; cbn; [congruence |].
  destruct (String.eqb k' k); [reflexivity |].
  intros H. rewrite IH by assumption. reflexivity.
Qed.

Lemma set_app_absent m1 m2 k v :
  JsMap.get m1 k = None -> JsMap.set (m1 ++ m2) k v = m1 ++ JsMap.set m2 k v.
Proof.
  induction m1 as [| [k' v'] m1 IH]; cbn; [reflexivity |].
  destruct (String.eqb k' k); [discriminate |].
  intros H. rewrite IH by assumption. reflexivity.
Qed.

Lemma Forall_set (P : string * V -> Prop) m k v :
  Forall P m -> P (k, v) -> Forall P (JsMap.set m k v).
Proof.
  intros Hm Hkv. induction Hm as [| [k' v'] m Hx Hm IH]; cbn.
  - repeat constructor. assumption.
  - destruct (String.eqb k' k); constructor; assumption.
Qed.

End MoreMapFacts.

Section Entries.

Import JsNumber JsObject Reference.

Context {V : Type}.

Lemma insertIndexed_Forall (P : string * V -> Prop) n e l :
  P e -> Forall (fun x => P (snd x)) l ->
  Forall (fun x => P (snd x)) (insertIndexed n e l).
Proof.
  intros He Hl. induction Hl as [| [n' e'] l Hx Hl IH]; cbn.
  - repeat constructor. exact He.
  - destruct (n <? n')%N; repeat (constructor; try assumption).
Qed.

Lemma indexed_Forall (P : string * V -> Prop) (m : JsMap.t V) :
  Forall (fun e => arrayIndex (fst e) <> None -> P e) m ->
  Forall P (map snd (indexed m)).
Proof.
  intros Hm. apply Forall_map.
  induction Hm as [| e m He Hm IH]; cbn; [constructor |].
  destruct (arrayIndex (fst e)) as [n |]; [| exact IH].
  apply (insertIndexed_Forall P); [apply He; discriminate | exact IH].
Qed.

Lemma named_app (m1 m2 : JsMap.t V) : named (m1 ++ m2) = named m1 ++ named m2.
Proof. apply List.filter_app. Qed.

Lemma named_Forall (P : string * V -> Prop) (m : JsMap.t V) :
  Forall P m -> Forall P (named m).
Proof.
  intros Hm. apply incl_Forall with (l1 := m); [apply incl_filter | exact Hm].
Qed.

End Entries.

Section Scores.

Import JsNumber JsArray JsObject Exn LocalRAG Reference.

Lemma plainName_proto c : plainName c = true -> String.eqb c "__proto__" = false.
Proof.
  unfold plainName. intros H. apply andb_true_iff in H as [H _].
  apply negb_true_iff in H. exact H.
Qed.

Lemma plainName_named c : plainName c = true -> arrayIndex c = None.
Proof.
  unfold plainName. intros H. apply andb_true_iff in H as [_ H].
  destruct (arrayIndex c); [discriminate | reflexivity].
Qed.

Lemma assign_plain scores c v :
  plainName c = true -> assign scores c v = JsMap.set scores c v.
Proof. intros H. unfold assign. rewrite plainName_proto by assumption. reflexivity. Qed.

Lemma tally_cons f d cats :
  tally f (d :: cats) = (d, Num (ofNat (f d))) :: tally f cats.
Proof. reflexivity. Qed.

Lemma tally_ext f g cats :
  (forall x, f x = g x) -> tally f cats = tally g cats.
Proof. intros H. apply map_ext. intros c. rewrite H. reflexivity. Qed.

Lemma get_tally_absent f cats c :
  c ∉ cats -> JsMap.get (tally f cats) c = None.
Proof.
  intros H. apply get_None_keys. unfold JsMap.keys, tally.
  rewrite map_map. cbn. rewrite map_id. exact H.
Qed.

Lemma get_tally_present f cats c :
  c ∈ cats -> JsMap.get (tally f cats) c = Some (Num (ofNat (f c))).
Proof.
  induction cats as [| d cats IH]; intros H; [inversion H |].
  rewrite tally_cons. cbn [JsMap.get].
  destruct (String.eqb_spec d c) as [-> | Hne]; [reflexivity |].
  apply IH. apply elem_of_cons in H as [-> | H]; [congruence | exact H].
Qed.

Lemma bumped_elsewhere f cats c :
  c ∉ cats -> tally (bumped f c) cats = tally f cats.
Proof.
  induction cats as [| d cats IH]; intros H; [reflexivity |].
  apply not_elem_of_cons in H as [Hne H]. rewrite !tally_cons.
  rewrite IH by assumption. unfold bumped at 1.
  destruct (String.eqb_spec d c); [congruence | reflexivity].
Qed.

Lemma set_tally f cats c :
  NoDup cats -> c ∈ cats ->
  JsMap.set (tally f cats) c (Num (ofNat (S (f c)))) = tally (bumped f c) cats.
Proof.
  induction cats as [| d cats IH]; intros Hnodup H; [inversion H |].
  apply NoDup_cons in Hnodup as [Hfresh Hnodup].
  rewrite !tally_cons. cbn [JsMap.set].
  unfold bumped at 1.
  destruct (String.eqb_spec d c) as [-> | Hne].
  - rewrite bumped_elsewhere by assumption. reflexivity.
  - rewrite IH; [reflexivity | assumption |].
    apply elem_of_cons in H as [-> | H]; [congruence | exact H].
Qed.

Lemma get_inert extra c v :
  Forall inert extra -> JsMap.get extra c = Some v -> v = Num NaN \/ v = Text.
Proof.
  intros Hextra. induction Hextra as [| [k x] extra Hx _ IH]; cbn;
    [discriminate |].
  destruct (String.eqb k c); [| exact IH].
  intros [= <-]. exact Hx.
Qed.

(** Adding 1 to what is not a number does not give a number. *)
Lemma addOne_inert extra c :
  Forall inert extra -> inert (c, addOne (readScore extra c)).
Proof.
  intros Hextra. unfold inert, readScore. cbn [snd].
  destruct (JsMap.get extra c) as [v |] eqn:Hget.
  - destruct (get_inert _ _ _ Hextra Hget) as [-> | ->];
      [left | right]; reflexivity.
  - destruct (isInherited c); [right | left]; reflexivity.
Qed.

Section Declared.

Variable cats : list string.
Hypothesis Hnodup : NoDup cats.
Hypothesis Hplain : Forall (fun c => plainName c = true) cats.

Lemma declared_plain c : c ∈ cats -> plainName c = true.
Proof.
  intros Hin. apply (proj1 (List.Forall_forall _ cats) Hplain).
  apply list_elem_of_In. exact Hin.
Qed.

Lemma bump_scores f extra c :
  Forall inert extra ->
  exists extra',
    bump (tally f cats ++ extra) c = tally (bumped f c) cats ++ extra'
    /\ Forall inert extra'.
Proof.
  intros Hextra. unfold bump.
  destruct (decide (c ∈ cats)) as [Hin | Hout].
  - rewrite assign_plain by (apply declared_plain; assumption).
    unfold readScore. rewrite get_app, get_tally_present by assumption.
    cbn [addOne]. rewrite plusOne_ofNat, set_app_present
      by (rewrite get_tally_present by assumption; discriminate).
    rewrite set_tally by assumption. eauto.
  - rewrite bumped_elsewhere by assumption.
    assert (Hread : readScore (tally f cats ++ extra) c = readScore extra c).
    { unfold readScore. rewrite get_app, get_tally_absent by assumption.
      reflexivity. }
    rewrite Hread. unfold assign.
    destruct (String.eqb c "__proto__"); [eauto |].
    rewrite set_app_absent by (apply get_tally_absent; assumption).
    eexists. split; [reflexivity |].
    apply Forall_set; [assumption | apply addOne_inert; assumption].
Qed.

Lemma occurrences_cons c d l :
  occurrences c (d :: l) = (if String.eqb c d then 1 else 0) + occurrences c l.
Proof. unfold occurrences. cbn. destruct (String.eqb c d); reflexivity. Qed.

Lemma bump_all_scores l f extra :
  Forall inert extra ->
  exists extra',
    fold_left bump l (tally f cats ++ extra)
    = tally (fun x => f x + occurrences x l) cats ++ extra'
    /\ Forall inert extra'.
Proof.
  revert f extra.
  induction l as [| c l IH]; intros f extra Hextra.
  - exists extra. split; [| assumption]. cbn. f_equal.
    apply tally_ext. intros x. unfold occurrences. cbn. lia.
  - cbn [fold_left].
    destruct (bump_scores f extra c Hextra) as (e1 & -> & He1).
    destruct (IH (bumped f c) e1 He1) as (e2 & -> & He2).
    exists e2. split; [| assumption]. f_equal.
    apply tally_ext. intros x. rewrite occurrences_cons. unfold bumped.
    rewrite (String.eqb_sym x c). destruct (String.eqb c x); lia.
Qed.

(** The loop over the keywords, none of which reads an inherited member:
    it ends normally, each declared category having gained its listings. *)
Lemma score_keywords self table kws f extra :
  keywords (searchIndex self) = Some table ->
  ownOrAbsent table kws = true ->
  Forall inert extra ->
  exists extra',
    scoreKeywords self kws (tally f cats ++ extra)
    = Return (tally (fun x => f x + totalHits table kws x) cats ++ extra')
    /\ Forall inert extra'.
Proof.
  intros Htable. revert f extra.
  induction kws as [| k kws IH]; intros f extra Hown Hextra.
  - exists extra. split; [| assumption]. cbn. do 2 f_equal.
    apply tally_ext. intros x. lia.
  - cbn [ownOrAbsent forallb] in Hown. apply andb_true_iff in Hown as [Hk Hown].
    cbn [scoreKeywords totalHits]. unfold scoreKeyword, hits.
    rewrite Htable. unfold read in *.
    destruct (table !! k) as [l |].
    + destruct (bump_all_scores l f extra Hextra) as (e1 & -> & He1).
      destruct (IH (fun x => f x + occurrences x l) e1 Hown He1)
        as (e2 & -> & He2).
      exists e2. split; [| assumption]. do 2 f_equal.
      apply tally_ext. intros x. lia.
    + destruct (isInherited k); [discriminate |].
      destruct (IH f extra Hown Hextra) as (e2 & -> & He2).
      exists e2. split; [| assumption]. reflexivity.
Qed.

(** A keyword that reads an inherited member ends the loop by an
    exception, whatever follows it. *)
Lemma score_keywords_inherited self table pre k post f extra :
  keywords (searchIndex self) = Some table ->
  ownOrAbsent table pre = true ->
  read table k = Inherited ->
  Forall inert extra ->
  scoreKeywords self (pre ++ k :: post) (tally f cats ++ extra) = Throw.
Proof.
  intros Htable Hown Hk. revert f extra.
  induction pre as [| p pre IH]; intros f extra Hextra.
  - cbn [app scoreKeywords]. unfold scoreKeyword. rewrite Htable, Hk.
    reflexivity.
  - cbn [ownOrAbsent forallb] in Hown. apply andb_true_iff in Hown as [Hp Hown].
    destruct (score_keywords self table [p] f extra Htable) as (e1 & H1 & He1);
      [cbn [ownOrAbsent forallb]; rewrite Hp; reflexivity | assumption |].
    cbn [app scoreKeywords] in *.
    destruct (scoreKeyword self (tally f cats ++ extra) p) as [scores |];
      [| reflexivity].
    injection H1 as ->. apply IH; assumption.
Qed.

Lemma initial_scores :
  fold_left (fun scores cat => assign scores cat (Num zero)) cats []
  = tally (fun _ => 0) cats.
Proof.
  enough (H : forall done rest,
             NoDup (done ++ rest) ->
             Forall (fun c => plainName c = true) rest ->
             fold_left (fun scores cat => assign scores cat (Num zero)) rest
                       (tally (fun _ => 0) done)
             = tally (fun _ => 0) (done ++ rest))
    by (apply (H [] cats); assumption).
  intros done rest. revert done.
  induction rest as [| c rest IH]; intros done Hnd Hpl.
  - rewrite app_nil_r. reflexivity.
  - apply Forall_cons in Hpl as [Hc Hpl]. cbn [fold_left].
    rewrite assign_plain by assumption.
    rewrite set_absent.
    2: { apply get_tally_absent. apply NoDup_app in Hnd as (_ & Hdisj & _).
         intros Hin. apply (Hdisj c Hin). apply list_elem_of_here. }
    change (tally (fun _ => 0) done ++ [(c, Num zero)])
      with (tally (fun _ => 0) done ++ tally (fun _ => 0) [c]).
    unfold tally at 1 2. rewrite <- map_app.
    change (map (fun c0 => (c0, Num (ofNat 0))) (done ++ [c]))
      with (tally (fun _ => 0) (done ++ [c])).
    rewrite IH by (rewrite <- ?app_assoc; assumption).
    rewrite <- app_assoc. reflexivity.
Qed.

(** Only the declared categories pass the test [score > 0]. *)
Lemma filter_scores f extra :
  Forall inert extra ->
  List.filter (fun e => gt (toNumber (snd e)) zero)
              (entries (tally f cats ++ extra))
  = tally f (List.filter (fun c => 0 <? f c) cats).
Proof.
  intros Hextra.
  assert (Hnone : forall l : list (string * Value),
             Forall inert l ->
             List.filter (fun e => gt (toNumber (snd e)) zero) l = []).
  { induction 1 as [| [k v] l Hv _ IH]; [reflexivity |].
    cbn [List.filter snd]. destruct Hv as [Hv | Hv]; cbn [snd] in Hv;
      rewrite Hv; exact IH. }
  assert (Htally : forall l, Forall (fun c => plainName c = true) l ->
             named (tally f l) = tally f l).
  { induction 1 as [| c l Hc _ IH]; [reflexivity |].
    rewrite tally_cons. unfold named in *. cbn [List.filter fst].
    rewrite (plainName_named c Hc), IH. reflexivity. }
  unfold entries. rewrite List.filter_app, Hnone.
  2: { apply indexed_Forall. apply Forall_app. split.
       - apply List.Forall_forall. intros [k v] Hin Hidx. exfalso. apply Hidx.
         unfold tally in Hin. apply in_map_iff in Hin as (c & [= <- <-] & Hc).
         apply plainName_named. apply declared_plain.
         apply list_elem_of_In. exact Hc.
       - apply (Forall_impl _ _ _ Hextra). intros x Hx _. exact Hx. }
  rewrite named_app, Htally by exact Hplain.
  rewrite List.filter_app, (Hnone (named extra))
    by (apply named_Forall; assumption).
  rewrite app_nil_r. cbn [app]. clear Htally Hnone Hnodup Hplain.
  induction cats as [| c l IH]; [reflexivity |].
  rewrite tally_cons. cbn [List.filter snd toNumber].
  rewrite gt_ofNat_zero, IH.
  destruct (0 <? f c); reflexivity.
Qed.

End Declared.



End Scores.

Section Ranking.

Import JsNumber JsArray JsObject Exn LocalRAG Reference Samples.

Lemma position_app c pre l :
  c ∉ pre -> position c (pre ++ l) = List.length pre + position c l.
Proof.
  induction pre as [| d pre IH]; intros H; [reflexivity |].
  apply not_elem_of_cons in H as [Hne H]. cbn.
  destruct (String.eqb_spec d c); [congruence |].
  rewrite IH by assumption. reflexivity.
Qed.

Lemma declared_order pre l :
  NoDup (pre ++ l) ->
  StronglySorted
    (fun c d => position c (pre ++ l) < position d (pre ++ l)) l.
Proof.
  revert pre. induction l as [| c l IH]; intros pre Hnodup; [constructor |].
  assert (Hnodup' : NoDup ((pre ++ [c]) ++ l))
    by (rewrite <- app_assoc; exact Hnodup).
  constructor.
  - specialize (IH (pre ++ [c]) Hnodup').
    rewrite <- app_assoc in IH. exact IH.
  - apply NoDup_app in Hnodup as (_ & Hdisj & Hcl).
    apply NoDup_cons in Hcl as [Hfresh _].
    apply List.Forall_forall. intros d Hd. apply list_elem_of_In in Hd.
    assert (Hc : c ∉ pre)
      by (intros Hin; apply (Hdisj c Hin); apply list_elem_of_here).
    assert (Hdpre : d ∉ pre)
      by (intros Hin; apply (Hdisj d Hin); apply list_elem_of_further; exact Hd).
    rewrite !position_app by assumption. cbn.
    rewrite String.eqb_refl.
    destruct (String.eqb_spec c d) as [-> | Hne]; [contradiction | lia].
Qed.

Lemma StronglySorted_filter {A : Type} (R : A -> A -> Prop) (p : A -> bool) l :
  StronglySorted R l -> StronglySorted R (List.filter p l).
Proof.
  induction 1 as [| x l _ IH Hx]; cbn; [constructor |].
  destruct (p x); [| exact IH].
  constructor; [exact IH |].
  apply incl_Forall with (l1 := l); [apply incl_filter | exact Hx].
Qed.

Lemma map_fst_tally f cats : map fst (tally f cats) = cats.
Proof. unfold tally. rewrite map_map. cbn. apply map_id. Qed.

(** The score object after the loop, for any duplicate-free list of
    declared categories with plain names. *)
Lemma scoreKeywords_scores (self : LocalRAG) table (kws : list string) :
  NoDup (categories self) ->
  Forall (fun c => plainName c = true) (categories self) ->
  keywords (searchIndex self) = Some table ->
  ownOrAbsent table kws = true ->
  exists extra,
    scoreKeywords self kws (initialScores self)
    = Return (tally (totalHits table kws) (categories self) ++ extra)
    /\ Forall inert extra.
Proof.
  intros Hnodup Hplain Htable Hown. unfold initialScores.
  rewrite initial_scores by assumption.
  destruct (score_keywords (categories self) Hnodup Hplain self table kws
              (fun _ => 0) [] Htable Hown (Forall_nil_2 _))
    as (extra & Hscores & Hextra).
  rewrite app_nil_r in Hscores. rewrite Hscores.
  exists extra. split; [| assumption]. do 2 f_equal.
Qed.

(** What [identifyRelevantCategories] returns: the ranking by any [score]
    that agrees with the number of listings. *)
Lemma identifyRelevantCategories_ranked (self : LocalRAG) table
    (kws : list string) (score : string -> nat) :
  NoDup (categories self) ->
  Forall (fun c => plainName c = true) (categories self) ->
  keywords (searchIndex self) = Some table ->
  ownOrAbsent table kws = true ->
  (forall c, totalHits table kws c = score c) ->
  exists result,
    identifyRelevantCategories self kws = Return result
    /\ topTwoBy score (categories self) result.
Proof.
  intros Hnodup Hplain Htable Hown Hscore.
  unfold identifyRelevantCategories.
  destruct (scoreKeywords_scores self table kws Hnodup Hplain Htable Hown)
    as (extra & -> & Hextra).
  rewrite (tally_ext _ score) by exact Hscore.
  rewrite filter_scores by assumption.
  unfold tally at 1. rewrite sort_map, map_map. cbn [fst]. rewrite map_id.
  eexists. split; [reflexivity |].
  eexists. split; [reflexivity |]. split.
  - apply sort_perm.
  - apply (sort_sorted _ score).
    + intros x y. cbn [snd toNumber]. apply gt_sub_ofNat.
    + apply StronglySorted_filter.
      apply (declared_order [] (categories self)). exact Hnodup.
Qed.

Lemma constructor_categories :
  NoDup (categories constructor)
  /\ Forall (fun c => plainName c = true) (categories constructor).
Proof.
  split; [apply (bool_decide_unpack _); vm_compute; exact I |].
  repeat constructor.
Qed.

(** An index never loaded has no keyword table: the first keyword
    throws. *)
Lemma identifyRelevantCategories_unloaded (k : string) (kws : list string) :
  identifyRelevantCategories constructor (k :: kws) = Throw.
Proof. reflexivity. Qed.

(** A keyword that names an inherited member of the table throws. *)
Lemma identifyRelevantCategories_inherited (self : LocalRAG) table pre k post :
  categories self = categories constructor ->
  keywords (searchIndex self) = Some table ->
  ownOrAbsent table pre = true ->
  read table k = Inherited ->
  identifyRelevantCategories self (pre ++ k :: post) = Throw.
Proof.
  intros Hdeclared Htable Hown Hk.
  destruct constructor_categories as [Hnodup Hplain].
  rewrite <- Hdeclared in Hnodup, Hplain.
  unfold identifyRelevantCategories, initialScores.
  rewrite initial_scores by assumption.
  rewrite <- (app_nil_r (tally _ _)).
  rewrite (score_keywords_inherited (categories self) Hnodup Hplain
             self table pre k post) by (assumption || constructor).
  reflexivity.
Qed.

Lemma identifyRelevantCategories_constructor_keyword :
  identifyRelevantCategories sampleRAG ["constructor"; "bank"] = Throw.
Proof. vm_compute. reflexivity. Qed.




End Ranking.

(** ** Edit distance *)

Section EditDistance.

Import JsArray LocalRAG Reference.

Lemma levenshtein_nil_r s : levenshtein s [] = List.length s.
Proof. destruct s; reflexivity. Qed.

Lemma levenshtein_cons x s y t :
  levenshtein (x :: s) (y :: t)
  = min3 (levenshtein s (y :: t) + 1)
         (levenshtein (x :: s) t + 1)
         (levenshtein s t + substitutionCost x y).
Proof. reflexivity. Qed.

Lemma min3_add a b c k : min3 a b c + k = min3 (a + k) (b + k) (c + k).
Proof. unfold min3. lia. Qed.

Lemma min3_glb n a b c : n <= min3 a b c <-> n <= a /\ n <= b /\ n <= c.
Proof. unfold min3. lia. Qed.

Lemma le_both (p q : nat) : (forall n, n <= p <-> n <= q) -> p = q.
Proof.
  intros H. apply Nat.le_antisymm; [apply H | apply H]; reflexivity.
Qed.

(** The recurrence read at the last characters, which is the one the
    matrix is filled by. *)
Lemma levenshtein_snoc s t x y :
  levenshtein (s ++ [x]) (t ++ [y])
  = min3 (levenshtein s (t ++ [y]) + 1)
         (levenshtein (s ++ [x]) t + 1)
         (levenshtein s t + substitutionCost x y).
Proof.
  revert t. induction s as [| x0 s IHs]; intros t.
  - induction t as [| y0 t IHt]; [reflexivity |].
    change (([] ++ [x]) : list ascii) with [x] in *.
    cbn [app]. rewrite levenshtein_cons, IHt.
    rewrite (levenshtein_cons x [] y0 t).
    cbn [levenshtein]. rewrite !length_app. cbn [List.length].
    unfold min3. lia.
  - induction t as [| y0 t IHt].
    + cbn [app]. rewrite !levenshtein_cons.
      specialize (IHs []). cbn [app] in IHs. rewrite IHs.
      rewrite !levenshtein_nil_r. rewrite !length_app. cbn [List.length].
      unfold min3. lia.
    + cbn [app]. rewrite !levenshtein_cons.
      pose proof (IHs (y0 :: t)) as H1. cbn [app] in H1. rewrite H1.
      pose proof (IHs t) as H2. rewrite H2.
      cbn [app] in IHt. rewrite IHt.
      rewrite !min3_add. apply le_both; intros n.
      rewrite !min3_glb. lia.
Qed.

Lemma levenshtein_refl s : levenshtein s s = 0.
Proof.
  induction s as [| x s IH]; [reflexivity |].
  rewrite levenshtein_cons, IH. unfold substitutionCost.
  rewrite Ascii.eqb_refl. unfold min3. lia.
Qed.

Lemma min3_swap a b c : min3 a b c = min3 b a c.
Proof. unfold min3. lia. Qed.

Lemma get_list (s : string) i : String.get i s = list_ascii_of_string s !! i.
Proof.
  revert i. induction s as [| c s IH]; intros [| i]; cbn; try reflexivity.
  apply IH.
Qed.

Lemma length_list (s : string) :
  String.length s = List.length (list_ascii_of_string s).
Proof. induction s as [| c s IH]; cbn; [reflexivity | rewrite IH; reflexivity]. Qed.

(** The rule for [for] loops: an invariant indexed by the loop counter. *)
Lemma forRange_ind {St : Type} (P : nat -> St -> Prop) lo hi body (s : St) :
  lo <= hi + 1 ->
  P lo s ->
  (forall i s, lo <= i -> i <= hi -> P i s -> P (i + 1) (body i s)) ->
  P (hi + 1) (forRange lo hi body s).
Proof.
  unfold forRange. remember (hi + 1 - lo) as n eqn:Hn.
  revert lo s Hn. induction n as [| n IH]; intros lo s Hn Hle Hstart Hstep.
  - cbn. replace (hi + 1) with lo by lia. exact Hstart.
  - cbn [seq fold_left]. apply IH; [lia | lia | |].
    + replace (S lo) with (lo + 1) by lia. apply Hstep; [lia | lia | exact Hstart].
    + intros i s' Hlo Hhi. apply Hstep; lia.
Qed.

Lemma wfMatrix_setCell la lb m j i v :
  wfMatrix la lb m -> wfMatrix la lb (setCell m j i v).
Proof.
  intros [Hrows Hcols]. unfold setCell. split.
  - rewrite length_insert. exact Hrows.
  - intros j' Hj'. destruct (decide (j = j')) as [<- | Hne].
    + rewrite list_lookup_total_insert_eq by lia.
      rewrite length_insert. apply Hcols. exact Hj'.
    + rewrite list_lookup_total_insert_ne by assumption. apply Hcols. exact Hj'.
Qed.

Lemma cell_setCell_eq la lb m j i v :
  wfMatrix la lb m -> j <= lb -> i <= la -> cell (setCell m j i v) j i = v.
Proof.
  intros [Hrows Hcols] Hj Hi. unfold cell, setCell.
  rewrite list_lookup_total_insert_eq by lia.
  apply list_lookup_total_insert_eq. rewrite Hcols by assumption. lia.
Qed.

Lemma cell_setCell_ne la lb m j i v j' i' :
  wfMatrix la lb m -> j <= lb ->
  j' <> j \/ i' <> i ->
  cell (setCell m j i v) j' i' = cell m j' i'.
Proof.
  intros [Hrows Hcols] Hj Hne. unfold cell, setCell.
  destruct (decide (j = j')) as [<- | Hjne].
  - rewrite list_lookup_total_insert_eq by lia.
    apply list_lookup_total_insert_ne. destruct Hne; congruence.
  - rewrite list_lookup_total_insert_ne by assumption. reflexivity.
Qed.

Lemma prefixDistance_0_r al bl i :
  i <= List.length al -> prefixDistance al bl i 0 = i.
Proof.
  intros Hi. unfold prefixDistance. rewrite take_0, levenshtein_nil_r.
  rewrite length_take. lia.
Qed.

Lemma prefixDistance_0_l al bl j :
  j <= List.length bl -> prefixDistance al bl 0 j = j.
Proof.
  intros Hj. unfold prefixDistance. rewrite take_0. cbn.
  rewrite length_take. lia.
Qed.

Lemma prefixDistance_step al bl i j x y :
  al !! i = Some x -> bl !! j = Some y ->
  prefixDistance al bl (S i) (S j)
  = min3 (prefixDistance al bl (S i) j + 1)
         (prefixDistance al bl i (S j) + 1)
         (prefixDistance al bl i j + substitutionCost x y).
Proof.
  intros Hx Hy. unfold prefixDistance.
  rewrite (take_S_r al i x Hx), (take_S_r bl j y Hy).
  rewrite levenshtein_snoc. apply min3_swap.
Qed.

Lemma calculateLevenshteinDistance_levenshtein (a b : string) :
  calculateLevenshteinDistance a b
  = levenshtein (list_ascii_of_string a) (list_ascii_of_string b).
Proof.
  unfold calculateLevenshteinDistance.
  set (al := list_ascii_of_string a). set (bl := list_ascii_of_string b).
  rewrite (length_list a), (length_list b). fold al bl.
  set (la := List.length al). set (lb := List.length bl).
  set (m0 := replicate (lb + 1) (replicate (la + 1) 0)).
  assert (Hm0 : wfMatrix la lb m0).
  { split; [apply length_replicate |]. intros j Hj.
    unfold m0. rewrite lookup_total_replicate_2 by lia. apply length_replicate. }
  set (m1 := forRange 0 la (fun i m => setCell m 0 i i) m0).
  assert (Hm1 : wfMatrix la lb m1 /\ forall i, i < la + 1 -> cell m1 0 i = i).
  { apply (forRange_ind
             (fun n m => wfMatrix la lb m /\ forall i, i < n -> cell m 0 i = i));
      [lia | split; [exact Hm0 | intros i Hi; lia] |].
    intros i m _ Hi [Hwf Hrow]. split; [apply wfMatrix_setCell; exact Hwf |].
    intros i' Hi'. destruct (decide (i' = i)) as [-> | Hne].
    - apply (cell_setCell_eq la lb); [assumption | lia | lia].
    - rewrite (cell_setCell_ne la lb) by (auto; lia). apply Hrow. lia. }
  destruct Hm1 as [Hwf1 Hrow1].
  set (m2 := forRange 0 lb (fun j m => setCell m j 0 j) m1).
  assert (Hm2 : wfMatrix la lb m2
                /\ (forall i, i <= la -> cell m2 0 i = i)
                /\ forall j, j < lb + 1 -> cell m2 j 0 = j).
  { apply (forRange_ind
             (fun n m => wfMatrix la lb m
                         /\ (forall i, i <= la -> cell m 0 i = i)
                         /\ forall j, j < n -> cell m j 0 = j));
      [lia | split; [exact Hwf1 | split; [intros i Hi; apply Hrow1; lia
                                          | intros j Hj; lia]] |].
    intros j m _ Hj (Hwf & Hrow & Hcol).
    split; [apply wfMatrix_setCell; exact Hwf |]. split.
    - intros i Hi.
      destruct (decide (j = 0 /\ i = 0)) as [[-> ->] | Hne].
      + apply (cell_setCell_eq la lb); [assumption | lia | lia].
      + rewrite (cell_setCell_ne la lb) by (auto; lia). apply Hrow. exact Hi.
    - intros j' Hj'. destruct (decide (j' = j)) as [-> | Hne].
      + apply (cell_setCell_eq la lb); [assumption | lia | lia].
      + rewrite (cell_setCell_ne la lb) by (auto; lia). apply Hcol. lia. }
  destruct Hm2 as (Hwf2 & Hrow2 & Hcol2).
  match goal with
  | |- cell (forRange 1 lb ?body m2) lb la = _ => set (fill := body)
  end.
  assert (Hm3 : wfMatrix la lb (forRange 1 lb fill m2)
                /\ filled al bl (lb + 1) 1 (forRange 1 lb fill m2)).
  { apply (forRange_ind (fun j m => wfMatrix la lb m /\ filled al bl j 1 m));
      [lia | |].
    - split; [exact Hwf2 |]. intros j' i' Hj' Hi' Hregion.
      assert (Hedge : j' = 0 \/ i' = 0) by lia.
      destruct (decide (j' = 0)) as [-> | Hj0].
      + rewrite Hrow2 by exact Hi'. symmetry. apply prefixDistance_0_r. exact Hi'.
      + assert (i' = 0) as -> by lia.
        rewrite Hcol2 by (fold lb in Hj'; lia).
        symmetry. apply prefixDistance_0_l. exact Hj'.
    - intros j m Hj1 Hjlb [Hwf Hfilled]. unfold fill.
      assert (Hrow : wfMatrix la lb
                       (forRange 1 la
                          (fun i m =>
                             setCell m j i
                               (min3 (cell m (j - 1) i + 1)
                                     (cell m j (i - 1) + 1)
                                     (cell m (j - 1) (i - 1)
                                      + (if sameChar (String.get (i - 1) a)
                                                     (String.get (j - 1) b)
                                         then 0 else 1)))) m)
                     /\ filled al bl j (la + 1)
                          (forRange 1 la
                             (fun i m =>
                                setCell m j i
                                  (min3 (cell m (j - 1) i + 1)
                                        (cell m j (i - 1) + 1)
                                        (cell m (j - 1) (i - 1)
                                         + (if sameChar (String.get (i - 1) a)
                                                        (String.get (j - 1) b)
                                            then 0 else 1)))) m)).
      { apply (forRange_ind (fun i m => wfMatrix la lb m /\ filled al bl j i m));
          [lia | split; assumption |].
        intros i m' Hi1 Hila [Hwf' Hfilled'].
        split; [apply wfMatrix_setCell; exact Hwf' |].
        destruct i as [| i0]; [lia |]. destruct j as [| j0]; [lia |].
        replace (S i0 - 1) with i0 by lia. replace (S j0 - 1) with j0 by lia.
        destruct (al !! i0) as [x |] eqn:Hx.
        2: { apply lookup_ge_None in Hx. fold la in Hx. lia. }
        destruct (bl !! j0) as [y |] eqn:Hy.
        2: { apply lookup_ge_None in Hy. fold lb in Hy. lia. }
        rewrite !get_list. fold al bl. rewrite Hx, Hy. cbn [sameChar].
        rewrite (Hfilled' j0 (S i0)) by (fold la lb; lia).
        rewrite (Hfilled' (S j0) i0) by (fold la lb; lia).
        rewrite (Hfilled' j0 i0) by (fold la lb; lia).
        change (if Ascii.eqb x y then 0 else 1) with (substitutionCost x y).
        rewrite <- (prefixDistance_step al bl i0 j0 x y Hx Hy).
        intros j' i' Hj' Hi' Hregion.
        destruct (decide (j' = S j0 /\ i' = S i0)) as [[-> ->] | Hne].
        - apply (cell_setCell_eq la lb); [assumption | lia | lia].
        - rewrite (cell_setCell_ne la lb) by (auto; lia).
          apply Hfilled'; [assumption | assumption | lia]. }
      destruct Hrow as [Hwf' Hfilled']. split; [exact Hwf' |].
      intros j' i' Hj' Hi' Hregion. apply Hfilled'; [assumption | assumption |].
      fold la in Hi'. lia. }
  destruct Hm3 as [_ Hfilled].
  rewrite (Hfilled lb la) by (fold la lb; lia).
  unfold prefixDistance. rewrite !take_ge by (fold la lb; lia). reflexivity.
Qed.

(** C9: [calculateLevenshteinDistance] is the classic edit distance with
    unit costs for insertion, deletion and substitution; in particular a
    word is at distance 0 from itself, and bank is at distance 1 from
    banc and from bunk. *)
Theorem calculateLevenshteinDistance_correct :
  (forall a b,
      calculateLevenshteinDistance a b
      = levenshtein (list_ascii_of_string a) (list_ascii_of_string b))
  /\ (forall s, calculateLevenshteinDistance s s = 0)
  /\ calculateLevenshteinDistance "bank" "banc" = 1
  /\ calculateLevenshteinDistance "bank" "bunk" = 1.
Proof.
  split; [exact calculateLevenshteinDistance_levenshtein |].
  split; [| split; vm_compute; reflexivity].
  intros s. rewrite calculateLevenshteinDistance_levenshtein.
  apply levenshtein_refl.
Qed.

End EditDistance.



(** * Further properties of the retrieval and pipeline code *)

(** ** The edit distance is a metric *)

Section EditMetric.

Import LocalRAG Reference.

Lemma substitutionCost_sym x y : substitutionCost x y = substitutionCost y x.
Proof. unfold substitutionCost. rewrite Ascii.eqb_sym. reflexivity. Qed.

Lemma substitutionCost_triangle x y z :
  substitutionCost x z <= substitutionCost x y + substitutionCost y z.
Proof.
  unfold substitutionCost.
  destruct (Ascii.eqb_spec x y) as [Hxy | Hxy];
    destruct (Ascii.eqb_spec y z) as [Hyz | Hyz];
    destruct (Ascii.eqb_spec x z) as [Hxz | Hxz]; try lia; congruence.
Qed.

Lemma levenshtein_sym s t : levenshtein s t = levenshtein t s.
Proof.
  revert t. induction s as [| x s IHs]; intros t.
  - rewrite levenshtein_nil_r. reflexivity.
  - induction t as [| y t IHt]; [reflexivity |].
    rewrite !levenshtein_cons, IHt, (IHs (y :: t)), (IHs t), substitutionCost_sym.
    apply min3_swap.
Qed.

Lemma levenshtein_upper s t :
  levenshtein s t <= Nat.max (List.length s) (List.length t).
Proof.
  revert t. induction s as [| x s IHs]; intros t; [cbn; lia |].
  destruct t as [| y t]; [cbn; lia |].
  rewrite levenshtein_cons. specialize (IHs t).
  assert (substitutionCost x y <= 1)
    by (unfold substitutionCost; destruct (Ascii.eqb x y); lia).
  unfold min3. cbn [List.length]. lia.
Qed.

Lemma levenshtein_lower s t :
  List.length s - List.length t <= levenshtein s t
  /\ List.length t - List.length s <= levenshtein s t.
Proof.
  revert t. induction s as [| x s IHs]; intros t; [cbn; lia |].
  induction t as [| y t IHt]; [cbn; lia |].
  rewrite levenshtein_cons.
  destruct (IHs (y :: t)) as [H1 H2]. destruct (IHs t) as [H3 H4].
  destruct IHt as [H5 H6]. cbn [List.length] in *.
  split; apply min3_glb; lia.
Qed.

Lemma levenshtein_zero s t : levenshtein s t = 0 <-> s = t.
Proof.
  split; [| intros ->; apply levenshtein_refl].
  revert t. induction s as [| x s IHs]; intros t.
  - destruct t; [reflexivity | discriminate].
  - destruct t as [| y t]; [discriminate |].
    rewrite levenshtein_cons. intros H.
    assert (H0 : levenshtein s t + substitutionCost x y = 0)
      by (unfold min3 in H; lia).
    assert (Hc : substitutionCost x y = 0) by lia.
    unfold substitutionCost in Hc.
    destruct (Ascii.eqb_spec x y) as [-> | Hne]; [| discriminate].
    f_equal. apply IHs. lia.
Qed.

Lemma levenshtein_cons_le x s y t :
  levenshtein (x :: s) (y :: t) <= levenshtein s (y :: t) + 1
  /\ levenshtein (x :: s) (y :: t) <= levenshtein (x :: s) t + 1
  /\ levenshtein (x :: s) (y :: t) <= levenshtein s t + substitutionCost x y.
Proof. rewrite levenshtein_cons. unfold min3. lia. Qed.

Lemma levenshtein_triangle_sized n :
  forall s t u,
    List.length s + List.length t + List.length u <= n ->
    levenshtein s u <= levenshtein s t + levenshtein t u.
Proof.
  induction n as [| n IH]; intros s t u Hn.
  - destruct s, t, u; cbn in *; lia.
  - destruct s as [| x s].
    { pose proof (levenshtein_lower t u). cbn. lia. }
    destruct u as [| z u].
    { rewrite !levenshtein_nil_r. pose proof (levenshtein_lower (x :: s) t). lia. }
    destruct t as [| y t].
    { rewrite levenshtein_nil_r. pose proof (levenshtein_upper (x :: s) (z :: u)).
      cbn [levenshtein List.length] in *. lia. }
    cbn [List.length] in Hn.
    destruct (levenshtein_cons_le x s z u) as (Hdel & Hins & Hsub).
    pose proof (IH s (y :: t) (z :: u) ltac:(cbn; lia)) as T1.
    pose proof (IH (x :: s) (y :: t) u ltac:(cbn; lia)) as T2.
    pose proof (IH (x :: s) t (z :: u) ltac:(cbn; lia)) as T3.
    pose proof (IH (x :: s) t u ltac:(cbn; lia)) as T4.
    pose proof (IH s t (z :: u) ltac:(cbn; lia)) as T5.
    pose proof (IH s t u ltac:(cbn; lia)) as T6.
    pose proof (substitutionCost_triangle x y z) as Hc.
    pose proof (levenshtein_cons x s y t) as Hab.
    pose proof (levenshtein_cons y t z u) as Hbc.
    unfold min3 in Hab, Hbc. lia.
Qed.

End EditMetric.

Section DistanceOnStrings.

Import JsString JsNumber LocalRAG Reference.

Lemma list_ascii_inj (a b : string) :
  list_ascii_of_string a = list_ascii_of_string b -> a = b.
Proof.
  intros H. rewrite <- (string_of_list_ascii_of_string a),
              <- (string_of_list_ascii_of_string b), H. reflexivity.
Qed.

Lemma calculateLevenshteinDistance_sym (a b : string) :
  calculateLevenshteinDistance a b = calculateLevenshteinDistance b a.
Proof. rewrite !calculateLevenshteinDistance_levenshtein. apply levenshtein_sym. Qed.

(** X1: [calculateLevenshteinDistance] is a metric on strings: it is
    symmetric, it is 0 exactly between equal strings, and it satisfies the
    triangle inequality. *)
Theorem calculateLevenshteinDistance_metric :
  (forall a b, calculateLevenshteinDistance a b = calculateLevenshteinDistance b a)
  /\ (forall a b, calculateLevenshteinDistance a b = 0 <-> a = b)
  /\ (forall a b c,
         calculateLevenshteinDistance a c
         <= calculateLevenshteinDistance a b + calculateLevenshteinDistance b c).
Proof.
  split; [| split].
  - exact calculateLevenshteinDistance_sym.
  - intros a b. rewrite calculateLevenshteinDistance_levenshtein, levenshtein_zero.
    split; [apply list_ascii_inj | intros ->; reflexivity].
  - intros a b c. rewrite !calculateLevenshteinDistance_levenshtein.
    eapply levenshtein_triangle_sized. reflexivity.
Qed.

(** X2: the distance lies between the difference of the two lengths and the
    larger of them. *)
Theorem calculateLevenshteinDistance_bounds (a b : string) :
  String.length a - String.length b <= calculateLevenshteinDistance a b
  /\ String.length b - String.length a <= calculateLevenshteinDistance a b
  /\ calculateLevenshteinDistance a b
     <= Nat.max (String.length a) (String.length b).
Proof.
  rewrite calculateLevenshteinDistance_levenshtein, !length_list.
  pose proof (levenshtein_lower (list_ascii_of_string a) (list_ascii_of_string b)).
  pose proof (levenshtein_upper (list_ascii_of_string a) (list_ascii_of_string b)).
  tauto.
Qed.

(** X3: [isKeywordMatch] does not depend on which of the two words is the
    user's and which the trigger. *)
Theorem isKeywordMatch_sym (u t : string) :
  isKeywordMatch u t = isKeywordMatch t u.
Proof.
  unfold isKeywordMatch.
  rewrite (String.eqb_sym u t).
  rewrite (orb_comm (includes u t) (includes t u)).
  rewrite (calculateLevenshteinDistance_sym u t),
    (Nat.min_comm (String.length u) (String.length t)).
  reflexivity.
Qed.

End DistanceOnStrings.


(** ** Relevance scores *)

Section RelevanceRange.

Import JsString JsNumber LocalRAG Reference.

(** The triggers that some user keyword matches. *)
Lemma count_matches (p : string -> bool) ts n :
  fold_left (fun matches trigger => if p trigger then matches + 1 else matches) ts n
  = n + List.length (List.filter p ts).
Proof.
  revert n. induction ts as [| t ts IH]; intros n; cbn; [lia |].
  rewrite IH. destruct (p t); cbn; lia.
Qed.

Lemma isZero_ofNat (n : nat) : isZero (Qc_of_Z (Z.of_nat n)) = (n =? 0).
Proof.
  unfold isZero. rewrite <- Z2Qc_inj_0, Qc_of_Z_compare.
  destruct n; reflexivity.
Qed.

Lemma calculateRelevanceScore_value us ts :
  ts <> [] ->
  calculateRelevanceScore us ts
  = Fin (Qc_of_Z (Z.of_nat
                    (List.length
                       (List.filter
                          (fun t => existsb (fun u => isKeywordMatch u t) us) ts)))
         / Qc_of_Z (Z.of_nat (List.length ts)))%Qc.
Proof.
  intros Hne. unfold calculateRelevanceScore.
  rewrite count_matches. cbn [Nat.add]. unfold div, ofNat.
  rewrite isZero_ofNat.
  destruct ts as [| t ts]; [congruence | reflexivity].
Qed.

Lemma Qc_ratio_range (m n : nat) :
  0 < n -> m <= n ->
  (0 <= Qc_of_Z (Z.of_nat m) / Qc_of_Z (Z.of_nat n)
   /\ Qc_of_Z (Z.of_nat m) / Qc_of_Z (Z.of_nat n) <= 1)%Qc.
Proof.
  intros Hn Hm.
  assert (Hpos : (0 < Qc_of_Z (Z.of_nat n))%Qc).
  { rewrite <- Z2Qc_inj_0, <- Z2Qc_inj_lt. lia. }
  assert (Hinv : (0 < / Qc_of_Z (Z.of_nat n))%Qc) by (apply Qcinv_pos; exact Hpos).
  assert (Hm0 : (0 <= Qc_of_Z (Z.of_nat m))%Qc).
  { rewrite <- Z2Qc_inj_0, <- Z2Qc_inj_le. lia. }
  assert (Hmn : (Qc_of_Z (Z.of_nat m) <= Qc_of_Z (Z.of_nat n))%Qc).
  { rewrite <- Z2Qc_inj_le. lia. }
  unfold Qcdiv. split.
  - apply Qcmult_nonneg_nonneg; [exact Hm0 | apply Qclt_le_weak; exact Hinv].
  - rewrite <- (Qcmult_inv_r (Qc_of_Z (Z.of_nat n)))
      by (apply not_symmetry, Qclt_not_eq; exact Hpos).
    apply Qcmult_le_compat_r; [exact Hmn | apply Qclt_le_weak; exact Hinv].
Qed.

(** X4: against a non-empty trigger list the relevance score is a finite
    number between 0 and 1. *)
Theorem calculateRelevanceScore_range us ts :
  ts <> [] ->
  exists q, calculateRelevanceScore us ts = Fin q /\ (0 <= q /\ q <= 1)%Qc.
Proof.
  intros Hne. rewrite calculateRelevanceScore_value by assumption.
  eexists. split; [reflexivity |].
  apply Qc_ratio_range.
  - destruct ts; [congruence | cbn; lia].
  - apply filter_length_le.
Qed.

Lemma calculateRelevanceScore_range_witness :
  exists q, calculateRelevanceScore ["bank"; "sync"] ["banking"; "error"] = Fin q
            /\ (0 <= q /\ q <= 1)%Qc.
Proof.
  apply (calculateRelevanceScore_range ["bank"; "sync"] ["banking"; "error"]).
  discriminate.
Defined.

(** X5: the score is 1 when every trigger keyword is among the user's
    keywords, and 0 when the user has no keyword at all. *)
Theorem calculateRelevanceScore_boundaries us ts :
  ts <> [] ->
  incl ts us ->
  calculateRelevanceScore us ts = one
  /\ calculateRelevanceScore [] ts = zero.
Proof.
  intros Hne Hincl. split.
  - rewrite calculateRelevanceScore_value by assumption.
    replace (List.filter (fun t => existsb (fun u => isKeywordMatch u t) us) ts)
      with ts.
    + unfold one, ofNat. f_equal. change (Z.of_nat 1) with 1%Z.
      rewrite Z2Qc_inj_1. apply Qcmult_inv_r.
      apply not_symmetry, Qclt_not_eq.
      rewrite <- Z2Qc_inj_0, <- Z2Qc_inj_lt.
      destruct ts; [congruence | cbn; lia].
    + symmetry. apply forallb_filter_id. apply forallb_forall. intros t Ht.
      apply existsb_exists. exists t. split; [apply Hincl; exact Ht |].
      unfold isKeywordMatch. rewrite String.eqb_refl. reflexivity.
  - rewrite calculateRelevanceScore_value by assumption.
    replace (List.filter (fun t => existsb (fun u => isKeywordMatch u t) []) ts)
      with (@nil string)
      by (clear; induction ts as [| t ts IH]; [reflexivity | exact IH]).
    unfold zero, ofNat. f_equal.
    change (Z.of_nat (List.length (@nil string))) with 0%Z.
    change (Z.of_nat 0) with 0%Z.
    unfold Qcdiv. rewrite Z2Qc_inj_0. apply Qcmult_0_l.
Qed.

Lemma calculateRelevanceScore_boundaries_witness :
  calculateRelevanceScore ["sync"; "error"; "bank"] ["bank"; "sync"] = one
  /\ calculateRelevanceScore [] ["bank"; "sync"] = zero.
Proof.
  apply (calculateRelevanceScore_boundaries ["sync"; "error"; "bank"] ["bank"; "sync"]).
  - discriminate.
  - intros x Hx. cbn in Hx. cbn. tauto.
Defined.

End RelevanceRange.

(** ** Relevant categories, whatever the table holds *)

Section CategoryBounds.

Import JsString JsNumber JsArray JsObject Exn LocalRAG Reference Samples.

Lemma occurrences_pos c l : 0 < occurrences c l -> c ∈ l.
Proof.
  unfold occurrences. induction l as [| d l IH]; cbn; [lia |].
  destruct (String.eqb_spec c d) as [-> | Hne]; intros H.
  - apply list_elem_of_here.
  - apply list_elem_of_further, IH, H.
Qed.

Lemma totalHits_pos table kws c :
  0 < totalHits table kws c ->
  exists k cats, k ∈ kws /\ table !! k = Some cats /\ c ∈ cats.
Proof.
  induction kws as [| k kws IH]; cbn [totalHits]; [lia |].
  intros H. destruct (Nat.eq_dec (hits table k c) 0) as [Hz | Hnz].
  - destruct IH as (k' & cats & Hk & Hidx & Hc); [lia |].
    exists k', cats. split; [apply list_elem_of_further; exact Hk | auto].
  - unfold hits in Hnz. destruct (table !! k) as [cats |] eqn:Hidx; [| lia].
    exists k, cats. split; [apply list_elem_of_here |]. split; [exact Hidx |].
    apply occurrences_pos. lia.
Qed.

(** The first keyword that reads an inherited member. *)
Lemma ownOrAbsent_false table kws :
  ownOrAbsent table kws = false ->
  exists pre k post,
    kws = pre ++ k :: post
    /\ ownOrAbsent table pre = true
    /\ read table k = Inherited.
Proof.
  induction kws as [| k kws IH]; [discriminate |].
  cbn [ownOrAbsent forallb]. intros H.
  destruct (read table k) eqn:Hk.
  - destruct (IH H) as (pre & k' & post & -> & Hpre & Hk').
    exists (k :: pre), k', post. split; [reflexivity |].
    split; [| exact Hk']. cbn [ownOrAbsent forallb]. rewrite Hk. exact Hpre.
  - exists [], k, kws. auto.
  - destruct (IH H) as (pre & k' & post & -> & Hpre & Hk').
    exists (k :: pre), k', post. split; [reflexivity |].
    split; [| exact Hk']. cbn [ownOrAbsent forallb]. rewrite Hk. exact Hpre.
Qed.

Lemma identifyRelevantCategories_outcome (self : LocalRAG) table kws :
  categories self = categories constructor ->
  keywords (searchIndex self) = Some table ->
  if ownOrAbsent table kws
  then exists result,
         identifyRelevantCategories self kws = Return result
         /\ topTwoBy (totalHits table kws) (categories self) result
  else identifyRelevantCategories self kws = Throw.
Proof.
  intros Hdeclared Htable.
  destruct (ownOrAbsent table kws) eqn:Hown.
  - destruct constructor_categories as [Hnodup Hplain].
    rewrite <- Hdeclared in Hnodup, Hplain.
    apply (identifyRelevantCategories_ranked self table kws); auto.
  - destruct (ownOrAbsent_false table kws Hown)
      as (pre & k & post & -> & Hpre & Hk).
    apply (identifyRelevantCategories_inherited self table); assumption.
Qed.

(** X6: over a keyword table, [identifyRelevantCategories] throws exactly
    when one of the keywords names a member the table does not own but
    inherits from [Object.prototype]; otherwise it returns. *)
Theorem identifyRelevantCategories_throws (self : LocalRAG)
    (table : gmap string (list string)) (kws : list string) :
  categories self = categories constructor ->
  keywords (searchIndex self) = Some table ->
  (identifyRelevantCategories self kws = Throw
   <-> ownOrAbsent table kws = false)
  /\ (ownOrAbsent table kws = true
      -> exists result, identifyRelevantCategories self kws = Return result).
Proof.
  intros Hdeclared Htable.
  pose proof (identifyRelevantCategories_outcome self table kws
                Hdeclared Htable) as H.
  destruct (ownOrAbsent table kws).
  - destruct H as (result & Hresult & _). split.
    + split; [rewrite Hresult |]; discriminate.
    + intros _. exists result. exact Hresult.
  - split; [tauto | discriminate].
Qed.

Lemma identifyRelevantCategories_throws_witness :
  (identifyRelevantCategories sampleRAG ["bank"; "toString"; "tax"] = Throw
   <-> ownOrAbsent sampleTable ["bank"; "toString"; "tax"] = false)
  /\ (ownOrAbsent sampleTable ["bank"; "toString"; "tax"] = true
      -> exists result,
          identifyRelevantCategories sampleRAG ["bank"; "toString"; "tax"]
          = Return result).
Proof.
  apply (identifyRelevantCategories_throws sampleRAG sampleTable
           ["bank"; "toString"; "tax"]); reflexivity.
Defined.

(** X7: on the object as constructed, whose search index is the empty
    object, [identifyRelevantCategories] returns the empty list for no
    keywords and throws for any other keyword list. *)
Theorem identifyRelevantCategories_before_loading (kws : list string) :
  identifyRelevantCategories constructor kws
  = match kws with
    | [] => Return []
    | _ :: _ => Throw
    end.
Proof. destruct kws; reflexivity. Qed.

(** X8: whatever the keyword table contains (also categories that are not
    declared, or listed twice), a result of [identifyRelevantCategories]
    holds at most two categories, without repetition, each of them declared
    and listed by the table for at least one of the input keywords. *)
Theorem identifyRelevantCategories_bounds (self : LocalRAG)
    (table : gmap string (list string)) (kws result : list string) :
  categories self = categories constructor ->
  keywords (searchIndex self) = Some table ->
  identifyRelevantCategories self kws = Return result ->
  List.length result <= 2
  /\ NoDup result
  /\ forall c,
      c ∈ result ->
      c ∈ categories self
      /\ exists k cats, k ∈ kws /\ table !! k = Some cats /\ c ∈ cats.
Proof.
  intros Hdeclared Htable Hresult.
  pose proof (identifyRelevantCategories_outcome self table kws
                Hdeclared Htable) as H.
  destruct (ownOrAbsent table kws); [| congruence].
  destruct H as (result' & Hresult' & ranked & -> & Hperm & _).
  rewrite Hresult in Hresult'. injection Hresult' as ->.
  assert (Hnodup : NoDup (categories self)).
  { rewrite Hdeclared. apply constructor_categories. }
  split; [rewrite length_take; lia |]. split.
  - assert (Hs : take 2 ranked `sublist_of` ranked) by apply sublist_take.
    refine (sublist_NoDup _ _ _ Hs).
    rewrite Hperm.
    apply NoDup_ListNoDup, List.NoDup_filter, NoDup_ListNoDup. exact Hnodup.
  - intros c Hc.
    apply (subseteq_take 2 ranked) in Hc.
    rewrite Hperm in Hc.
    apply list_elem_of_In, filter_In in Hc as [Hin Hpos].
    split; [apply list_elem_of_In; exact Hin |].
    apply totalHits_pos. apply Nat.ltb_lt. exact Hpos.
Qed.

Lemma identifyRelevantCategories_bounds_witness :
  List.length ["banking"; "reports"] <= 2
  /\ NoDup ["banking"; "reports"]
  /\ forall c,
      c ∈ ["banking"; "reports"] ->
      c ∈ categories sampleRAG
      /\ exists k cats,
          k ∈ ["bank"; "report"; "tax"; "cash"]
          /\ sampleTable !! k = Some cats /\ c ∈ cats.
Proof.
  apply (identifyRelevantCategories_bounds sampleRAG sampleTable
           ["bank"; "report"; "tax"; "cash"] ["banking"; "reports"]).
  - reflexivity.
  - reflexivity.
  - vm_compute. reflexivity.
Defined.

End CategoryBounds.

(** ** Keywords of a message *)

Section KeywordShapes.

Import JsString JsObject Exn LocalRAG Reference Samples.

Lemma lowerChar_idem c : lowerChar (lowerChar c) = lowerChar c.
Proof. destruct c as [[] [] [] [] [] [] [] []]; vm_compute; reflexivity. Qed.

Lemma toLowerCase_idem s : toLowerCase (toLowerCase s) = toLowerCase s.
Proof.
  induction s as [| c s IH]; [reflexivity |].
  cbn [toLowerCase]. rewrite lowerChar_idem, IH. reflexivity.
Qed.





(** X10: [extractKeywords] does not see the case of the message. *)
Theorem extractKeywords_lowered (message : string) :
  extractKeywords (toLowerCase message) = extractKeywords message.
Proof. unfold extractKeywords. rewrite toLowerCase_idem. reflexivity. Qed.



End KeywordShapes.
